(** * pathlib: a shallow embedding of [pkg/pathlib/pathlib.go]

    The Go package wraps a cleaned path string in a value type [Path] and
    offers path algebra ([Join], [Parent], [Parents]), queries ([Exists]),
    a recursive finder ([Find], [FindOne]), creation helpers ([Mkdir],
    [Touch], [Create]), [Read] and [Delete].

    Go strings are byte sequences: they are [string] here (a list of 8-bit
    [ascii]); the byte loops of the Go library functions the package calls
    ([filepath.Clean], [filepath.Dir], [filepath.Base], [filepath.Join],
    [strings.TrimRight], ...) run on [list ascii].  The host is Unix:
    [filepath.Separator] is '/' and there are no volume names. *)

From Stdlib Require Import Strings.Ascii Strings.String Strings.Byte Lists.List Arith Lia.
From stdpp Require Import base option gmap strings list.
Import ListNotations.

Local Open Scope list_scope.

(** ** Byte strings *)

Definition bytes_of (s : string) : list ascii := list_ascii_of_string s.
Definition string_of (l : list ascii) : string := string_of_list_ascii l.

(** ** Package [strings] (the functions [splitPath] uses) *)

Module strings.

(** [strings.TrimRight(s, cutset)] for a one-byte cutset: drops every
    trailing byte equal to [c]. *)
Fixpoint TrimRight (s : list ascii) (c : ascii) : list ascii :=
  match s with
  | [] => []
  | x :: s' =>
      match TrimRight s' c with
      | [] => if Ascii.eqb x c then [] else [x]
      | t => x :: t
      end
  end.

(** [strings.LastIndex(s, sep)] for a one-byte separator: the index of
    the last byte equal to [c], or [None] for Go's -1. *)
Fixpoint LastIndex (s : list ascii) (c : ascii) : option nat :=
  match s with
  | [] => None
  | x :: s' =>
      match LastIndex s' c with
      | Some i => Some (S i)
      | None => if Ascii.eqb x c then Some 0 else None
      end
  end.

(** [strings.HasSuffix(s, suffix)] for a one-byte suffix. *)
Fixpoint HasSuffix (s : list ascii) (c : ascii) : bool :=
  match s with
  | [] => false
  | [x] => Ascii.eqb x c
  | _ :: s' => HasSuffix s' c
  end.

(** [strings.Join(elems, sep)]. *)
Fixpoint Join (elems : list (list ascii)) (sep : list ascii) : list ascii :=
  match elems with
  | [] => []
  | [e] => e
  | e :: rest => e ++ sep ++ Join rest sep
  end.

End strings.

(** ** Package [path/filepath] on Unix *)

Module filepath.

Definition Separator : ascii := "/"%char.

Definition IsPathSeparator (c : ascii) : bool := Ascii.eqb c Separator.

Definition isDot (c : ascii) : bool := Ascii.eqb c "."%char.

(** [r == n || os.IsPathSeparator(path[r])] on the unread suffix
    [path[r:]]. *)
Definition endOrSep (rest : list ascii) : bool :=
  match rest with
  | [] => true
  | c :: _ => IsPathSeparator c
  end.

(** The [..] case of [Clean] when it can backtrack:
<<
    out.w--
    for out.w > dotdot && !os.IsPathSeparator(out.index(out.w)) {
        out.w--
    }
>>
    [backtrack_to buf dotdot w] is the loop, counting [w] down; the
    buffer holds [out.w] bytes, so the new buffer is its prefix. *)
Fixpoint backtrack_to (buf : list ascii) (dotdot w : nat) : nat :=
  match w with
  | O => O
  | S w' =>
      if (dotdot <? w) && negb (IsPathSeparator (nth w buf Separator))
      then backtrack_to buf dotdot w'
      else w
  end.

Definition backtrack (out : list ascii) (dotdot : nat) : list ascii :=
  firstn (backtrack_to out dotdot (length out - 1)) out.

(** The copy loop of a real path element:
<<
    for ; r < n && !os.IsPathSeparator(path[r]); r++ {
        out.append(path[r])
    }
>>
    returns the unread suffix and the buffer. *)
Fixpoint copy_element (rest out : list ascii) : list ascii * list ascii :=
  match rest with
  | [] => ([], out)
  | c :: rest' =>
      if IsPathSeparator c then (rest, out)
      else copy_element rest' (out ++ [c])
  end.

(** The main loop [for r < n { switch ... }] of [Clean].  [rest] is the
    unread suffix [path[r:]], [out] the bytes written so far (its length
    is [out.w]), [dotdot] the index where [..] must stop.  Every
    iteration reads at least one byte, so [fuel] = [n] iterations are
    enough (see [clean_loop_lexical]). *)
Fixpoint clean_loop (fuel : nat) (rooted : bool)
         (rest out : list ascii) (dotdot : nat) : list ascii :=
  match fuel, rest with
  | O, _ => out
  | _, [] => out
  | S fuel', c :: rest1 =>
      if IsPathSeparator c then
        (* empty path element *)
        clean_loop fuel' rooted rest1 out dotdot
      else if isDot c && endOrSep rest1 then
        (* . element *)
        clean_loop fuel' rooted rest1 out dotdot
      else if isDot c && isDot (hd Separator rest1) && endOrSep (tl rest1) then
        (* .. element: remove to last separator *)
        let rest2 := tl rest1 in
        if dotdot <? length out then
          (* can backtrack *)
          clean_loop fuel' rooted rest2 (backtrack out dotdot) dotdot
        else if negb rooted then
          (* cannot backtrack, but not rooted, so append .. element *)
          let out1 := if 0 <? length out then out ++ [Separator] else out in
          let out2 := out1 ++ ["."%char; "."%char] in
          clean_loop fuel' rooted rest2 out2 (length out2)
        else
          clean_loop fuel' rooted rest2 out dotdot
      else
        (* real path element: add slash if needed, copy element *)
        let out1 :=
          if (rooted && negb (length out =? 1)) ||
             (negb rooted && negb (length out =? 0))
          then out ++ [Separator] else out in
        let '(rest', out2) := copy_element rest out1 in
        clean_loop fuel' rooted rest' out2 dotdot
  end.

(** [filepath.Clean] on bytes. *)
Definition clean (path : list ascii) : list ascii :=
  match path with
  | [] => ["."%char]
  | c :: path1 =>
      let rooted := IsPathSeparator c in
      let n := length path in
      let out :=
        if rooted
        then clean_loop n true path1 [Separator] 1
        else clean_loop n false path [] 0 in
      (* Turn empty string into "." *)
      if length out =? 0 then ["."%char] else out
  end.

Definition Clean (path : string) : string := string_of (clean (bytes_of path)).

(** The backward scan shared by [Dir] and [Base]:
<<
    i := len(path) - 1
    for i >= 0 && !os.IsPathSeparator(path[i]) {
        i--
    }
>>
    [scan_back path k] runs it from [i = k - 1] and returns [i + 1]. *)
Fixpoint scan_back (path : list ascii) (k : nat) : nat :=
  match k with
  | O => O
  | S i => if IsPathSeparator (nth i path Separator) then k else scan_back path i
  end.

(** [filepath.Dir]: [Clean(path[:i+1])]. *)
Definition dir (path : list ascii) : list ascii :=
  clean (firstn (scan_back path (length path)) path).

Definition Dir (path : string) : string := string_of (dir (bytes_of path)).

(** [filepath.Base]. *)
Definition base (path : list ascii) : list ascii :=
  match path with
  | [] => ["."%char]
  | _ =>
      (* Strip trailing slashes. *)
      let path := strings.TrimRight path Separator in
      (* Find the last element. *)
      let path := skipn (scan_back path (length path)) path in
      (* If empty now, it had only slashes. *)
      match path with
      | [] => [Separator]
      | _ => path
      end
  end.

Definition Base (path : string) : string := string_of (base (bytes_of path)).

(** [filepath.Join]: the first non-empty element and everything after it,
    joined by the separator and cleaned; [""] when every element is
    empty. *)
Fixpoint join (elem : list (list ascii)) : list ascii :=
  match elem with
  | [] => []
  | e :: rest =>
      match e with
      | [] => join rest
      | _ => clean (strings.Join elem [Separator])
      end
  end.

Definition Join (elem : list string) : string :=
  string_of (join (map bytes_of elem)).

(** [filepath.IsAbs] on Unix: [strings.HasPrefix(path, "/")]. *)
Definition IsAbs (path : string) : bool :=
  match bytes_of path with
  | c :: _ => IsPathSeparator c
  | [] => false
  end.

End filepath.


(** ** The lexical reading of [Clean]

    [Clean] read element by element: a path is the list of its elements
    (the byte runs between separators); cleaning keeps a count of leading
    [..] elements and a stack of names.  [clean_loop] is proved to compute
    this reading (see [clean_loop_lexical]); the reading is what the
    proofs about cleaned paths work on. *)

Module Lexical.

Definition sep : ascii := filepath.Separator.
Definition dot : list ascii := ["."%char].
Definition dotdot : list ascii := ["."%char; "."%char].

(** The elements of a path: the byte runs between separators. *)
Fixpoint elements (s : list ascii) : list (list ascii) :=
  match s with
  | [] => [[]]
  | c :: s' =>
      if filepath.IsPathSeparator c then [] :: elements s'
      else
        match elements s' with
        | e :: es => (c :: e) :: es
        | [] => [[c]]
        end
  end.

Definition sepfree (e : list ascii) : Prop :=
  Forall (fun c => filepath.IsPathSeparator c = false) e.

(** A name: an element that is not empty, [.] or [..]. *)
Definition name (e : list ascii) : Prop :=
  sepfree e /\ e <> [] /\ e <> dot /\ e <> dotdot.

(** [ups] leading [..] elements, then [names], the last one first. *)
Record lexstate := { ups : nat; names : list (list ascii) }.

Definition init : lexstate := {| ups := 0; names := [] |}.

Definition step (rooted : bool) (st : lexstate) (e : list ascii) : lexstate :=
  if bool_decide (e = []) || bool_decide (e = dot) then st
  else if bool_decide (e = dotdot) then
    match names st with
    | _ :: ns => {| ups := ups st; names := ns |}
    | [] => if rooted then st else {| ups := S (ups st); names := [] |}
    end
  else {| ups := ups st; names := e :: names st |}.

(** The elements of a stack (top first) joined by separators. *)
Fixpoint joined (stack : list (list ascii)) : list ascii :=
  match stack with
  | [] => []
  | [e] => e
  | e :: below => joined below ++ sep :: e
  end.

Definition stack_of (st : lexstate) : list (list ascii) :=
  names st ++ repeat dotdot (ups st).

Definition prefix (rooted : bool) : list ascii :=
  if rooted then [sep] else [].

(** The output buffer and the [dotdot] index of a state. *)
Definition render (rooted : bool) (st : lexstate) : list ascii :=
  prefix rooted ++ joined (stack_of st).

Definition dotdot_index (rooted : bool) (st : lexstate) : nat :=
  length (prefix rooted ++ joined (repeat dotdot (ups st))).

Definition wf (rooted : bool) (st : lexstate) : Prop :=
  (rooted = true -> ups st = 0) /\ Forall name (names st).

(** "Turn empty string into [.]" *)
Definition finish (out : list ascii) : list ascii :=
  match out with [] => dot | _ => out end.

Definition nonempty (e : list ascii) : Prop := e <> [].

(** The last byte is not a separator. *)
Definition ends_in_name (s : list ascii) : Prop :=
  exists body c, s = body ++ [c] /\ filepath.IsPathSeparator c = false.

Definition rooted_of (path : list ascii) : bool :=
  match path with
  | c :: _ => filepath.IsPathSeparator c
  | [] => false
  end.

(** The state after reading all of [path]. *)
Definition reading (path : list ascii) : lexstate :=
  fold_left (step (rooted_of path)) (elements path) init.

End Lexical.

(** ** Errors and file information *)

(** The [syscall.Errno] values the model distinguishes. *)
Inductive errno := ENOENT | EACCES | EEXIST | ENOTDIR | EISDIR | EROFS | EIO.

(** Go [error] values: the [*fs.PathError] of a failed system call, the
    sentinels of [path/filepath], and the string errors [fmt.Errorf]
    builds (its verb here is [%v], so the cause is kept as text). *)
Inductive error :=
| PathError (op : string) (name : string) (err : errno)
| ErrBadPattern
| SkipDir
| SkipAll
| errorString (s : string).

Definition strerror (e : errno) : string :=
  match e with
  | ENOENT => "no such file or directory"
  | EACCES => "permission denied"
  | EEXIST => "file exists"
  | ENOTDIR => "not a directory"
  | EISDIR => "is a directory"
  | EROFS => "read-only file system"
  | EIO => "input/output error"
  end.

(** [err.Error()]. *)
Definition Error (e : error) : string :=
  match e with
  | PathError op name err => op +:+ " " +:+ name +:+ ": " +:+ strerror err
  | ErrBadPattern => "syntax error in pattern"
  | SkipDir => "skip this directory"
  | SkipAll => "skip everything and stop the walk"
  | errorString s => s
  end.

(** [fmt.Errorf(prefix + "%v", err)]. *)
Definition Errorf (prefix : string) (err : error) : error :=
  errorString (prefix +:+ Error err).

(** [os.IsNotExist(err)]; [err] may be nil. *)
Definition IsNotExist (err : option error) : bool :=
  match err with
  | Some (PathError _ _ ENOENT) => true
  | _ => false
  end.

Definition isSkipDir (err : error) : bool :=
  match err with SkipDir => true | _ => false end.

Definition isSkipAll (err : error) : bool :=
  match err with SkipAll => true | _ => false end.

(** A Go [(T, error)] pair of a call that either yields a value or fails. *)
Inductive result (A : Type) :=
| Ok (a : A)
| Err (e : error).
Arguments Ok {A} a.
Arguments Err {A} e.

(** [os.FileInfo], as far as the package looks at it. *)
Record FileInfo := { fi_Name : string; fi_IsDir : bool }.

(** What a run of [filepath.Walk] sees of the tree under its root: the
    result of [os.Lstat] on a path and, for a directory, of
    [readDirNames] (the sorted names) with the view of every entry. *)
Inductive wtree :=
| LstatErr (err : error)
| LstatOk (info : FileInfo) (dir : wdir)
with wdir :=
| ReadDirErr (err : error)
| ReadDirOk (entries : wentries)
with wentries :=
| WNil
| WCons (name : string) (t : wtree) (rest : wentries).

(** ** The host: operating system and Go library calls

    [World] is the state of the filesystem.  [os_Stat], [os_ReadFile],
    [os_Getwd] and the walk only read it. *)
Class Host (World : Type) := {
  os_Getwd : World -> result string;
  os_Stat : World -> string -> result FileInfo;
  os_MkdirAll : string -> N -> World -> option error * World;
  os_Create : string -> World -> option error * World;
  os_ReadFile : World -> string -> result (list byte);
  os_RemoveAll : string -> World -> option error * World;
  (** the tree [filepath.Walk] finds under a root *)
  os_walkTree : World -> string -> wtree;
  (** [filepath.Match(pattern, name)] *)
  filepath_Match : string -> string -> bool * option error
}.

(** ** [filepath.Walk] *)

(** What [WalkFunc] receives besides the path: [info] and [err].  [info]
    is nil only when [os.Lstat] failed, so the case "nil, nil" is left
    out. *)
Inductive walkArg :=
| Visit (info : FileInfo)
| VisitErr (info : option FileInfo) (err : error).

Definition WalkFunc (S : Type) : Type :=
  string -> walkArg -> S -> option error * S.

Section Walk.
Context {S : Type} (walkFn : WalkFunc S).

(** [walk(path, info, walkFn)] and its loop over [names]. *)
Fixpoint walk (path : string) (info : FileInfo) (dir : wdir) (s : S)
  {struct dir} : option error * S :=
  if negb (fi_IsDir info) then walkFn path (Visit info) s
  else
    match dir with
    | ReadDirErr err =>
        (* walk can't walk into this directory: return whatever walkFn returns *)
        walkFn path (VisitErr (Some info) err) s
    | ReadDirOk entries =>
        let '(err1, s1) := walkFn path (Visit info) s in
        match err1 with
        | Some _ => (err1, s1)
        | None => walk_names path entries s1
        end
    end
with walk_names (path : string) (entries : wentries) (s : S)
  {struct entries} : option error * S :=
  match entries with
  | WNil => (None, s)
  | WCons name t rest =>
      let filename := filepath.Join [path; name] in
      match t with
      | LstatErr err =>
          let '(e, s1) := walkFn filename (VisitErr None err) s in
          match e with
          | Some e' =>
              if negb (isSkipDir e') then (Some e', s1)
              else walk_names path rest s1
          | None => walk_names path rest s1
          end
      | LstatOk fileInfo dir =>
          let '(e, s1) := walk filename fileInfo dir s in
          match e with
          | Some e' =>
              if negb (fi_IsDir fileInfo) || negb (isSkipDir e')
              then (Some e', s1)
              else walk_names path rest s1
          | None => walk_names path rest s1
          end
      end
  end.

(** [filepath.Walk(root, walkFn)] on the view [t] of [root]. *)
Definition Walk (t : wtree) (root : string) (s : S) : option error * S :=
  let '(err, s1) :=
    match t with
    | LstatErr err => walkFn root (VisitErr None err) s
    | LstatOk info dir => walk root info dir s
    end in
  match err with
  | Some e => if isSkipDir e || isSkipAll e then (None, s1) else (err, s1)
  | None => (None, s1)
  end.
End Walk.

(** The paths of the non-directories under a root, in walk order: the
    files a walk that is never cut short presents to its function. *)
Fixpoint files_dir (path : string) (info : FileInfo) (dir : wdir) {struct dir}
  : list string :=
  if negb (fi_IsDir info) then [path]
  else
    match dir with
    | ReadDirErr _ => []
    | ReadDirOk entries => files_entries path entries
    end
with files_entries (path : string) (entries : wentries) {struct entries}
  : list string :=
  match entries with
  | WNil => []
  | WCons name t rest =>
      match t with
      | LstatErr _ => []
      | LstatOk info dir => files_dir (filepath.Join [path; name]) info dir
      end ++ files_entries path rest
  end.

Definition files (t : wtree) (root : string) : list string :=
  match t with
  | LstatErr _ => []
  | LstatOk info dir => files_dir root info dir
  end.

Scheme wtree_ind' := Induction for wtree Sort Prop
  with wdir_ind' := Induction for wdir Sort Prop
  with wentries_ind' := Induction for wentries Sort Prop.

(** ** Package [pathlib] *)

(** [type Path struct { path string }] *)
Record Path := mkPath { path : string }.

(** How a call ends: it returns, or the Go runtime panics. *)
Inductive outcome (A : Type) :=
| Returns (a : A)
| Panics (msg : string).
Arguments Returns {A} a.
Arguments Panics {A} msg.

(** The dynamic value [Read] returns as [interface{}]: nil, or a [[]byte]. *)
Inductive any :=
| nil
| Bytes (data : list byte).

(** [uint] on a 64-bit host. *)
Definition uint_modulus : N := 2 ^ 64.
Definition uint_incr (n : N) : N := ((n + 1) mod uint_modulus)%N.

(** The mode [0755] (octal) [Mkdir] passes to [os.MkdirAll]. *)
Definition perm_0755 : N := 493.

(** *** The pure part *)

(** [NewPath] creates a new Path instance with the given directory string. *)
Definition NewPath (p : string) : Path := {| path := filepath.Clean p |}.

Definition Name (p : Path) : string := filepath.Base (path p).

Definition String (p : Path) : string := path p.

Definition IsAbsolute (p : Path) : bool := filepath.IsAbs (path p).

Definition Join (p : Path) (other : string) : Path :=
  {| path := filepath.Join [path p; other] |}.

Definition Parent (p : Path) : Path := {| path := filepath.Dir (path p) |}.

(** The loop of [Parents], [n] iterations left:
<<
      for i := uint(0); i < depth; i++ {
          current = current.Parent()
          if current.path == "." || current.path == string(filepath.Separator) {
              break
          }
          parents = append(parents, current)
      }
>>
 *)
Fixpoint Parents_loop (n : nat) (current : Path) (parents : list Path)
  : list Path :=
  match n with
  | O => parents
  | S n' =>
      let current := Parent current in
      if bool_decide (path current = ".") || bool_decide (path current = "/")
      then parents
      else Parents_loop n' current (parents ++ [current])
  end.

(** The message of the run-time panic of an index expression at -1. *)
Definition index_panic : string := "runtime error: index out of range [-1]".

(** [parents[len(parents)-1]]: the index expression panics on an empty
    slice. *)
Definition last_parent (parents : list Path) : outcome Path :=
  match parents with
  | [] => Panics index_panic
  | p0 :: _ => Returns (List.last parents p0)
  end.

Definition Parents (p : Path) (depth : N) : outcome Path :=
  let depth := uint_incr depth in
  last_parent (Parents_loop (N.to_nat depth) p []).

(** [splitPath] on bytes. *)
Definition splitPath (path : list ascii) : list ascii * list ascii :=
  let urlSeparator := filepath.Separator in
  let trimmedPath := strings.TrimRight path urlSeparator in
  let '(folder, file) :=
    match strings.LastIndex trimmedPath urlSeparator with
    | Some lastSlashIndex =>
        (firstn lastSlashIndex trimmedPath, skipn (lastSlashIndex + 1) trimmedPath)
    | None => ([], trimmedPath)
    end in
  if strings.HasSuffix path urlSeparator then (folder, []) else (folder, file).

(** The paths at which the loop of [Parents] stops. *)
Definition at_boundary (p : Path) : bool :=
  bool_decide (path p = ".") || bool_decide (path p = "/").

(** A Path whose string is a fixed point of [Clean]. *)
Definition normalized (p : Path) : Prop := filepath.Clean (path p) = path p.

(** *** The effectful part: a state monad over the world and standard
    output *)

Section Pathlib.
Context {World : Type} `{!Host World}.

Record state := { world : World; stdout : list string }.

Definition M (A : Type) : Type := state -> A * state.

Definition ret {A} (a : A) : M A := fun st => (a, st).

Definition bind {A B} (m : M A) (k : A -> M B) : M B :=
  fun st => let '(a, st1) := m st in k a st1.

#[local] Instance M_ret : MRet M := @ret.
#[local] Instance M_bind : MBind M := fun A B k m => bind m k.

(** reading the world *)
Definition query {A} (f : World -> A) : M A := fun st => (f (world st), st).

(** a system call that may change the world *)
Definition syscall {A} (f : World -> A * World) : M A :=
  fun st => let '(a, w) := f (world st) in (a, {| world := w; stdout := stdout st |}).

(** [fmt.Println] of one line *)
Definition Println (line : string) : M unit :=
  fun st => (tt, {| world := world st; stdout := stdout st ++ [line] |}).

(** [GetBaseDir] returns the current working directory as the base
    directory. *)
Definition GetBaseDir : M Path :=
  r ← query os_Getwd;
  match r with
  | Err _ => ret (NewPath ".")
  | Ok dir => ret (NewPath dir)
  end.

(** [Exists] checks if the path exists on the filesystem. *)
Definition Exists (p : Path) : M bool :=
  r ← query (fun w => os_Stat w (path p));
  match r with
  | Ok _ => ret true
  | Err _ => ret false
  end.

(** [FindOne]: the walk function appends to [matches]. *)
Definition FindOne_fn (pattern : string) : WalkFunc (list Path) :=
  fun path arg matches =>
    match arg with
    | VisitErr _ err => (Some err, matches)
    | Visit info =>
        (* Skip directories *)
        if fi_IsDir info then (None, matches)
        else
          match filepath_Match pattern (filepath.Base path) with
          | (_, Some err) => (Some err, matches)
          | (true, None) => (None, matches ++ [NewPath path])
          | (false, None) => (None, matches)
          end
    end.

Definition FindOne (p : Path) (pattern : string) : M (list Path) :=
  r ← query (fun w => Walk (FindOne_fn pattern) (os_walkTree w (path p)) (path p) []);
  let '(err, matches) := r in
  match err with
  | Some e => Println ("Error during walk: " +:+ Error e) ;; ret matches
  | None => ret matches
  end.

(** [Find]: [dict[pattern] = p.FindOne(pattern)] for every pattern. *)
Fixpoint Find_loop (p : Path) (patterns : list string)
         (dict : gmap string (list Path)) : M (gmap string (list Path)) :=
  match patterns with
  | [] => ret dict
  | pattern :: rest =>
      found ← FindOne p pattern;
      Find_loop p rest (<[pattern := found]> dict)
  end.

Definition Find (p : Path) (patterns : list string)
  : M (gmap string (list Path)) :=
  Find_loop p patterns ∅.

(** [Mkdir] creates the directory specified by the Path, including any
    necessary parent directories. *)
Definition Mkdir (p : Path) : M (option error) :=
  let dirname := String p in
  err ← syscall (os_MkdirAll dirname perm_0755);
  match err with
  | Some e => ret (Some (Errorf "failed to create directory: " e))
  | None => ret None
  end.

(** [Touch] creates a file at the specified Path if it does not exist. *)
Definition Touch (p : Path) (pathname : string) : M (option error) :=
  let dirname := String p in
  let filename := filepath.Join [dirname; pathname] in
  r ← query (fun w => os_Stat w filename);
  let err := match r with Ok _ => None | Err e => Some e end in
  if IsNotExist err then
    err ← syscall (os_Create filename);
    match err with
    | Some e => ret (Some (Errorf "failed to create file: " e))
    | None => ret None
    end
  else
    match err with
    | Some e => ret (Some (Errorf "failed to check file status: " e))
    | None => ret None
    end.

(** [createPath] creates necessary directories and files for the
    specified path.  The results of [p.Mkdir()] and [p.Touch(file)] are
    dropped, as in the source. *)
Definition createPath (pathname : string) : M Path :=
  let '(folder, file) := splitPath (bytes_of pathname) in
  let folder :=
    if bool_decide (file = []) || (bool_decide (folder = []) && bool_decide (file = []))
    then bytes_of pathname else folder in
  let p := NewPath (string_of folder) in
  (if bool_decide (folder <> []) then Mkdir p ;; ret tt else ret tt) ;;
  if bool_decide (file <> []) then
    Touch p (string_of file) ;;
    ret (NewPath (String (Join p (string_of file))))
  else ret p.

(** [Create] creates a new path, ensuring the necessary directories and
    files exist. *)
Definition Create (p : Path) (pathname : string) : M Path :=
  let path := Join p pathname in
  createPath (String path).

(** [Read] reads file content. *)
Definition Read (p : Path) : M any :=
  r ← query (fun w => os_ReadFile w (String p));
  match r with
  | Err _ => ret nil
  | Ok data => ret (Bytes data)
  end.

(** [Delete]: remove file from the folder. *)
Definition Delete (p : Path) : M bool :=
  ex ← Exists p;
  if (ex : bool) then
    err ← syscall (os_RemoveAll (String p));
    match err with
    | Some e => Println ("Error Deleting path: " +:+ Error e) ;; ret false
    | None => ret true
    end
  else ret true.

(** What [FindOne] returns in a world: the matches of the walk. *)
Definition found (p : Path) (pattern : string) (w : World) : list Path :=
  (Walk (FindOne_fn pattern) (os_walkTree w (path p)) (path p) []).2.

(** [q] is the Path of a file among [fs] whose base name matches. *)
Definition matching (pattern : string) (fs : list string) (q : Path) : Prop :=
  exists f, In f fs /\ q = NewPath f /\
            filepath_Match pattern (filepath.Base f) = (true, None).

(** A walk result [r] extends [matches] by matching files only. *)
Definition adds (pattern : string) (fs : list string)
           (matches : list Path) (r : option error * list Path) : Prop :=
  exists added, r.2 = matches ++ added /\ Forall (matching pattern fs) added.

(** The Paths of the files among [fs] whose base name [pattern] matches. *)
Definition matched (pattern : string) (fs : list string) : list Path :=
  map NewPath (List.filter (fun f => (filepath_Match pattern (filepath.Base f)).1) fs).

(** [filepath.Match] reports no error on the base names of [fs]. *)
Definition match_ok (pattern : string) (fs : list string) : Prop :=
  forall f, In f fs -> (filepath_Match pattern (filepath.Base f)).2 = None.

(** The Path values the operations of the package hand out. *)
Inductive produced : Path -> Prop :=
| produced_NewPath s : produced (NewPath s)
| produced_GetBaseDir st : produced (GetBaseDir st).1
| produced_Join p other : produced p -> produced (Join p other)
| produced_Parent p : produced p -> produced (Parent p)
| produced_Parents p depth q :
    produced p -> Parents p depth = Returns q -> produced q
| produced_Create p pathname st : produced p -> produced (Create p pathname st).1
| produced_FindOne p pattern st q :
    produced p -> In q (FindOne p pattern st).1 -> produced q
| produced_Find p patterns st pattern qs q :
    produced p -> (Find p patterns st).1 !! pattern = Some qs -> In q qs ->
    produced q.

End Pathlib.

Arguments state World : clear implicits.
Arguments M World : clear implicits.

(** ** A reference host: an in-memory filesystem

    A tree of directories and regular files with the failure modes the
    package reacts to: missing entries, a file where a directory is
    needed, directories without search permission, and a read-only
    filesystem.  It instantiates [Host], so that the package can be run on
    concrete worlds. *)

Module MemFS.

#[warnings="-register-all"] Inductive node :=
| File (data : list byte)
| Dir (searchable : bool) (entries : list (string * node)).

Record memfs := { root : node; cwd : string; readonly : bool }.

(** The names from the root to [name], resolved against [cwd]. *)
Definition segments (w : memfs) (name : string) : list string :=
  let abs := if filepath.IsAbs name then filepath.Clean name
             else filepath.Join [cwd w; name] in
  map string_of (filter (fun e => e <> []) (Lexical.elements (bytes_of abs))).

Fixpoint assoc (name : string) (es : list (string * node)) : option node :=
  match es with
  | [] => None
  | (n, x) :: es' => if bool_decide (n = name) then Some x else assoc name es'
  end.

(** Puts [name := x] in a directory listing, kept sorted by name. *)
Fixpoint put (name : string) (x : node) (es : list (string * node))
  : list (string * node) :=
  match es with
  | [] => [(name, x)]
  | (n, y) :: es' =>
      if bool_decide (n = name) then (name, x) :: es'
      else if String.ltb name n then (name, x) :: es
      else (n, y) :: put name x es'
  end.

Fixpoint remove (name : string) (es : list (string * node))
  : list (string * node) :=
  match es with
  | [] => []
  | (n, y) :: es' => if bool_decide (n = name) then es' else (n, y) :: remove name es'
  end.

Fixpoint resolve (segs : list string) (x : node) : errno + node :=
  match segs with
  | [] => inr x
  | s :: segs' =>
      match x with
      | File _ => inl ENOTDIR
      | Dir false _ => inl EACCES
      | Dir true es =>
          match assoc s es with
          | Some y => resolve segs' y
          | None => inl ENOENT
          end
      end
  end.

Definition stat (w : memfs) (name : string) : result FileInfo :=
  match resolve (segments w name) (root w) with
  | inr (File _) => Ok {| fi_Name := filepath.Base name; fi_IsDir := false |}
  | inr (Dir _ _) => Ok {| fi_Name := filepath.Base name; fi_IsDir := true |}
  | inl e => Err (PathError "stat" name e)
  end.

(** [mkdir(2)]: makes one directory; the directory above it must be
    there. *)
Fixpoint mkdir (ro : bool) (segs : list string) (x : node) : errno + node :=
  match segs with
  | [] => inl EEXIST
  | s :: segs' =>
      match x with
      | File _ => inl ENOTDIR
      | Dir false _ => inl EACCES
      | Dir true es =>
          match segs', assoc s es with
          | [], Some _ => inl EEXIST
          | [], None => if ro then inl EROFS else inr (Dir true (put s (Dir true []) es))
          | _, Some y =>
              match mkdir ro segs' y with
              | inr y' => inr (Dir true (put s y' es))
              | inl e => inl e
              end
          | _, None => inl ENOENT
          end
      end
  end.

(** [os.Create]: makes the file, or truncates it. *)
Fixpoint create (ro : bool) (segs : list string) (x : node) : errno + node :=
  match segs with
  | [] => inl EISDIR
  | s :: segs' =>
      match x with
      | File _ => inl ENOTDIR
      | Dir false _ => inl EACCES
      | Dir true es =>
          match segs', assoc s es with
          | [], Some (Dir _ _) => inl EISDIR
          | [], _ => if ro then inl EROFS else inr (Dir true (put s (File []) es))
          | _, Some y =>
              match create ro segs' y with
              | inr y' => inr (Dir true (put s y' es))
              | inl e => inl e
              end
          | _, None => inl ENOENT
          end
      end
  end.

(** [os.RemoveAll]: removes the entry and what is below it; a path that
    does not exist is not an error. *)
Fixpoint removeAll (ro : bool) (segs : list string) (x : node) : errno + node :=
  match segs with
  | [] => inl EACCES
  | s :: segs' =>
      match x with
      | File _ => inr x
      | Dir false _ => inl EACCES
      | Dir true es =>
          match assoc s es with
          | None => inr x
          | Some y =>
              match segs' with
              | [] => if ro then inl EROFS else inr (Dir true (remove s es))
              | _ =>
                  match removeAll ro segs' y with
                  | inr y' => inr (Dir true (put s y' es))
                  | inl e => inl e
                  end
              end
          end
      end
  end.

Definition update (op : string) (f : bool -> list string -> node -> errno + node)
           (name : string) (w : memfs) : option error * memfs :=
  match f (readonly w) (segments w name) (root w) with
  | inr x => (None, {| root := x; cwd := cwd w; readonly := readonly w |})
  | inl e => (Some (PathError op name e), w)
  end.

(** [os.MkdirAll], on the path string as Go has it:
<<
    dir, err := Stat(path)
    if err == nil {
        if dir.IsDir() { return nil }
        return &PathError{Op: "mkdir", Path: path, Err: syscall.ENOTDIR}
    }
    i := len(path)
    for i > 0 && IsPathSeparator(path[i-1]) { i-- }
    j := i
    for j > 0 && !IsPathSeparator(path[j-1]) { j-- }
    if j > 1 {
        err = MkdirAll(path[:j-1], perm)
        if err != nil { return err }
    }
    err = Mkdir(path, perm)
    if err != nil {
        dir, err1 := Lstat(path)
        if err1 == nil && dir.IsDir() { return nil }
        return err
    }
    return nil
>>
    so that a failure names the directory that could not be made, not
    the path asked for.  The parent is shorter than the path: [fuel] is
    the length of the path. *)
Fixpoint MkdirAll (fuel : nat) (path : string) (w : memfs) : option error * memfs :=
  match stat w path with
  | Ok dir =>
      if fi_IsDir dir then (None, w)
      else (Some (PathError "mkdir" path ENOTDIR), w)
  | Err _ =>
      let i := length (strings.TrimRight (bytes_of path) filepath.Separator) in
      let j := filepath.scan_back (bytes_of path) i in
      let '(err, w1) :=
        match fuel with
        | S fuel' =>
            if 1 <? j
            then MkdirAll fuel' (string_of (firstn (j - 1) (bytes_of path))) w
            else (None, w)
        | O => (None, w)
        end in
      match err with
      | Some e => (Some e, w1)
      | None =>
          match update "mkdir" mkdir path w1 with
          | (Some e, w2) =>
              match stat w2 path with
              | Ok dir => if fi_IsDir dir then (None, w2) else (Some e, w2)
              | Err _ => (Some e, w2)
              end
          | (None, w2) => (None, w2)
          end
      end
  end.

Definition readFile (w : memfs) (name : string) : result (list byte) :=
  match resolve (segments w name) (root w) with
  | inr (File data) => Ok data
  | inr (Dir _ _) => Err (PathError "read" name EISDIR)
  | inl e => Err (PathError "open" name e)
  end.

(** The view [filepath.Walk] gets of the node at [name]. *)
Fixpoint view (name : string) (x : node) : wtree :=
  match x with
  | File _ => LstatOk {| fi_Name := filepath.Base name; fi_IsDir := false |} (ReadDirOk WNil)
  | Dir searchable es =>
      LstatOk {| fi_Name := filepath.Base name; fi_IsDir := true |}
        (if searchable then
           ReadDirOk
             ((fix views (es : list (string * node)) : wentries :=
                 match es with
                 | [] => WNil
                 | (n, y) :: es' => WCons n (view (filepath.Join [name; n]) y) (views es')
                 end) es)
         else ReadDirErr (PathError "open" name EACCES))
  end.

Definition walkTree (w : memfs) (name : string) : wtree :=
  match resolve (segments w name) (root w) with
  | inr x => view name x
  | inl e => LstatErr (PathError "lstat" name e)
  end.

(** Shell patterns with [*] and [?] only (every other byte stands for
    itself); neither crosses a separator. *)
Fixpoint glob (pattern name : list ascii) : bool :=
  match pattern with
  | [] => match name with [] => true | _ => false end
  | c :: pattern' =>
      if Ascii.eqb c "*"%char then
        (fix star (name : list ascii) : bool :=
           glob pattern' name ||
           match name with
           | d :: name' => negb (filepath.IsPathSeparator d) && star name'
           | [] => false
           end) name
      else
        match name with
        | d :: name' =>
            (if Ascii.eqb c "?"%char then negb (filepath.IsPathSeparator d)
             else Ascii.eqb c d) && glob pattern' name'
        | [] => false
        end
  end.

#[export] Instance host : Host memfs := {|
  os_Getwd w := Ok (cwd w);
  os_Stat := stat;
  os_MkdirAll name _ := MkdirAll (String.length name) name;
  os_Create := update "open" create;
  os_ReadFile := readFile;
  os_RemoveAll := update "unlinkat" removeAll;
  os_walkTree := walkTree;
  filepath_Match pattern name := (glob (bytes_of pattern) (bytes_of name), None)
|}.

(** Runs a program on a world with nothing printed yet. *)
Definition run {A} (m : M memfs A) (w : memfs) : A * state memfs :=
  m {| world := w; stdout := [] |}.

End MemFS.

(** ** Reading aids for the loops of [Parents] and [Walk] *)

(** What the loop of [Parents] appends in [n] iterations from [current]:
    the successive parents, up to the first one at the boundary. *)
Fixpoint ancestors (n : nat) (current : Path) : list Path :=
  match n with
  | O => []
  | S n' =>
      let current := Parent current in
      if at_boundary current then [] else current :: ancestors n' current
  end.

(** A tree a walk gets through without an error: every [os.Lstat]
    succeeds and every directory can be read. *)
Fixpoint readable_dir (info : FileInfo) (dir : wdir) {struct dir} : bool :=
  negb (fi_IsDir info) ||
  match dir with
  | ReadDirErr _ => false
  | ReadDirOk entries => readable_entries entries
  end
with readable_entries (entries : wentries) {struct entries} : bool :=
  match entries with
  | WNil => true
  | WCons _ t rest =>
      match t with
      | LstatErr _ => false
      | LstatOk info dir => readable_dir info dir
      end && readable_entries rest
  end.

Definition readable (t : wtree) : bool :=
  match t with
  | LstatErr _ => false
  | LstatOk info dir => readable_dir info dir
  end.

(** Worlds to run the package on. *)
Module Worlds.
Import MemFS.

Definition start (x : node) : state memfs :=
  {| world := {| root := x; cwd := "/tmp"; readonly := false |}; stdout := [] |}.

Definition start_readonly (x : node) : state memfs :=
  {| world := {| root := x; cwd := "/tmp"; readonly := true |}; stdout := [] |}.

(** an empty directory [/tmp] *)
Definition fresh : state memfs := start (Dir true [("tmp", Dir true [])]).

(** [/tmp/a] is a regular file *)
Definition file_in_the_way : state memfs :=
  start (Dir true [("tmp", Dir true [("a", File [])])]).

(** [/tmp/data.txt] holds two bytes, [/tmp/empty.txt] none *)
Definition with_files : state memfs :=
  start (Dir true [("tmp", Dir true [("data.txt", File ["h"%byte; "i"%byte]);
                                     ("empty.txt", File [])])]).

(** [/tmp/a] holds a file and a directory with a file *)
Definition with_tree : state memfs :=
  start (Dir true [("tmp", Dir true [("a", Dir true [("b", Dir true [("c.go", File [])]);
                                                     ("d.go", File [])])])]).

(** [/secret] cannot be searched; it holds a file *)
Definition locked : state memfs :=
  start (Dir true [("secret", Dir false [("f", File [])])]).

End Worlds.

(** * Properties *)

Example Clean_1 : filepath.Clean "abc/def/../ghi/../jkl" = "abc/jkl".
Proof. reflexivity. Qed.
Example Clean_2 : filepath.Clean "abc/def/../../../ghi/jkl/../../../mno" = "../../mno".
Proof. reflexivity. Qed.
Example Clean_3 : filepath.Clean "/abc/def/../../.." = "/".
Proof. reflexivity. Qed.
Example Clean_4 : filepath.Clean "abc//./../def" = "def".
Proof. reflexivity. Qed.
Example Clean_5 : filepath.Clean "abc/../../././../def" = "../../def".
Proof. reflexivity. Qed.
Example Clean_6 : filepath.Clean "" = "." /\ filepath.Clean "../../" = "../.."
  /\ filepath.Clean "/../abc" = "/abc" /\ filepath.Clean "a/../b:/../../c" = "../c"
  /\ filepath.Clean "/./abc/def/" = "/abc/def" /\ filepath.Clean "abc/def/../.." = ".".
Proof. repeat split; reflexivity. Qed.

Example Dir_1 : filepath.Dir "/usr/lib" = "/usr" /\ filepath.Dir "/usr" = "/"
  /\ filepath.Dir "a" = "." /\ filepath.Dir "a/b/" = "a/b" /\ filepath.Dir "" = "."
  /\ filepath.Dir "../.." = ".." /\ filepath.Dir "/" = "/".
Proof. repeat split; reflexivity. Qed.
Example Base_1 : filepath.Base "/usr/lib" = "lib" /\ filepath.Base "a/b/" = "b"
  /\ filepath.Base "" = "." /\ filepath.Base "///" = "/" /\ filepath.Base "x" = "x".
Proof. repeat split; reflexivity. Qed.
Example Join_1 : filepath.Join ["a"; "b/"] = "a/b" /\ filepath.Join [""; "b"] = "b"
  /\ filepath.Join [""; ""] = "" /\ filepath.Join ["/tmp"; "dir/"] = "/tmp/dir"
  /\ filepath.Join ["a"; ""] = "a" /\ filepath.Join ["/"; "/"] = "/".
Proof. repeat split; reflexivity. Qed.


Example splitPath_1 :
  splitPath (bytes_of "a/b/c.txt") = (bytes_of "a/b", bytes_of "c.txt") /\
  splitPath (bytes_of "a/b/") = (bytes_of "a", []) /\
  splitPath (bytes_of "dir/") = ([], []) /\
  splitPath (bytes_of "c.txt") = ([], bytes_of "c.txt") /\
  splitPath (bytes_of "/") = ([], []).
Proof. repeat split; reflexivity. Qed.

Example Parents_1 :
  Parents (NewPath "/a/b/c/d") 0 = Returns {| path := "/a/b/c" |} /\
  Parents (NewPath "/a/b/c/d") 1 = Returns {| path := "/a/b" |} /\
  Parents (NewPath "/a/b/c/d") 10 = Returns {| path := "/a" |} /\
  Parents (NewPath "a/b") 3 = Returns {| path := "a" |}.
Proof. repeat split; reflexivity. Qed.

(** [depth++] wraps at the largest [uint]: the loop does not run. *)
Example Parents_wraps :
  Parents (NewPath "/a/b/c/d") (uint_modulus - 1) = Panics index_panic.
Proof. reflexivity. Qed.

(** ** [Clean] computes the lexical reading *)

Section CleanLexical.
Import filepath Lexical.

Lemma sep_true c : IsPathSeparator c = true <-> c = sep.
Proof. unfold IsPathSeparator. apply Ascii.eqb_eq. Qed.

Lemma sepfree_cons c e : sepfree (c :: e) <-> IsPathSeparator c = false /\ sepfree e.
Proof.
  unfold sepfree. split.
  - inversion 1; auto.
  - intros [Hc He]. constructor; auto.
Qed.

Lemma sepfree_dot : sepfree dot.
Proof. repeat constructor. Qed.

Lemma sepfree_dotdot : sepfree dotdot.
Proof. repeat constructor. Qed.

Lemma elements_nonempty s : elements s <> [].
Proof.
  destruct s as [|c s]; simpl; [discriminate|].
  destruct (IsPathSeparator c); [discriminate|].
  destruct (elements s); discriminate.
Qed.

Lemma elements_sepfree e : sepfree e -> elements e = [e].
Proof.
  induction e as [|c e IH]; intros H; [reflexivity|].
  apply sepfree_cons in H as [Hc He]. simpl. rewrite Hc, IH; auto.
Qed.

Lemma elements_sepfree_app e r :
  sepfree e -> elements (e ++ sep :: r) = e :: elements r.
Proof.
  induction e as [|c e IH]; intros H; [reflexivity|].
  apply sepfree_cons in H as [Hc He]. simpl. rewrite Hc, IH; auto.
Qed.

Lemma elements_all_sepfree s : Forall sepfree (elements s).
Proof.
  induction s as [|c s IH]; simpl.
  - repeat constructor.
  - destruct (IsPathSeparator c) eqn:Hc.
    + constructor; [constructor | exact IH].
    + destruct (elements s) as [|e es]; inversion IH; subst;
        repeat constructor; auto.
Qed.

Lemma step_empty rooted st : step rooted st [] = st.
Proof. reflexivity. Qed.

Lemma step_dot rooted st : step rooted st dot = st.
Proof. reflexivity. Qed.

(** Reading [e] and then the rest is reading [e ++ rest], when [e] ends
    where [rest] begins. *)
Lemma fold_elements_app rooted e rest st :
  sepfree e -> endOrSep rest = true ->
  fold_left (step rooted) (elements (e ++ rest)) st =
  fold_left (step rooted) (elements rest) (step rooted st e).
Proof.
  intros He Hr. destruct rest as [|c r].
  - rewrite app_nil_r, elements_sepfree by assumption. reflexivity.
  - simpl in Hr. apply sep_true in Hr. subst c.
    rewrite elements_sepfree_app by assumption.
    simpl. reflexivity.
Qed.

Lemma copy_element_spec rest out :
  exists e rest', rest = e ++ rest' /\ sepfree e /\ endOrSep rest' = true /\
                  copy_element rest out = (rest', out ++ e).
Proof.
  revert out. induction rest as [|c rest IH]; intros out.
  - exists [], []. simpl. rewrite !app_nil_r.
    split; [reflexivity|]. split; [constructor|]. split; reflexivity.
  - simpl. destruct (IsPathSeparator c) eqn:Hc.
    + exists [], (c :: rest). simpl. rewrite !app_nil_r.
      split; [reflexivity|]. split; [constructor|]. split; [exact Hc | reflexivity].
    + destruct (IH (out ++ [c])) as (e & rest' & -> & He & Hr & Hcopy).
      exists (c :: e), rest'. rewrite Hcopy, <- app_assoc.
      repeat split; auto. apply sepfree_cons; auto.
Qed.

Lemma backtrack_to_stop buf d lo w :
  lo <= w -> d <= lo ->
  (forall i, lo < i <= w -> IsPathSeparator (nth i buf Separator) = false) ->
  (d = lo \/ IsPathSeparator (nth lo buf Separator) = true) ->
  backtrack_to buf d w = lo.
Proof.
  induction w as [|w IH]; intros Hlo Hd Hfree Hstop.
  - simpl. lia.
  - simpl. destruct (Nat.eq_dec lo (S w)) as [->|Hne].
    + destruct Hstop as [->|Hs].
      * rewrite Nat.ltb_irrefl. reflexivity.
      * rewrite Hs, andb_false_r. reflexivity.
    + assert (Hlt : (d <? S w) = true) by (apply Nat.ltb_lt; lia).
      rewrite Hlt, (Hfree (S w)) by lia. simpl.
      apply IH; auto; try lia. intros i Hi. apply Hfree. lia.
Qed.

Lemma nth_sepfree base e i :
  sepfree e -> length base <= i < length base + length e ->
  IsPathSeparator (nth i (base ++ e) Separator) = false.
Proof.
  intros He Hi. rewrite app_nth2 by lia.
  unfold sepfree in He. rewrite Forall_forall in He.
  apply He. apply list_elem_of_In. apply nth_In. lia.
Qed.

(** Backtracking over [sep :: e]. *)
Lemma backtrack_sep base e d :
  sepfree e -> d <= length base -> backtrack (base ++ sep :: e) d = base.
Proof.
  intros He Hd. unfold backtrack.
  rewrite (backtrack_to_stop _ d (length base)).
  - rewrite firstn_app, Nat.sub_diag, firstn_all. simpl. apply app_nil_r.
  - rewrite length_app. simpl. lia.
  - exact Hd.
  - intros i Hi. rewrite length_app in Hi. simpl in Hi.
    replace (base ++ sep :: e) with ((base ++ [sep]) ++ e) by (rewrite <- app_assoc; reflexivity).
    apply nth_sepfree; [exact He|]. rewrite length_app. simpl. lia.
  - right. rewrite app_nth2, Nat.sub_diag by lia. reflexivity.
Qed.

(** Backtracking over a first element [e], down to the [dotdot] index. *)
Lemma backtrack_first base e :
  sepfree e -> e <> [] -> backtrack (base ++ e) (length base) = base.
Proof.
  intros He Hne. unfold backtrack.
  assert (0 < length e) by (destruct e; simpl; [congruence | lia]).
  rewrite (backtrack_to_stop _ _ (length base)).
  - rewrite firstn_app, Nat.sub_diag, firstn_all. simpl. apply app_nil_r.
  - rewrite length_app. lia.
  - lia.
  - intros i Hi. rewrite length_app in Hi. apply nth_sepfree; [exact He | lia].
  - left. reflexivity.
Qed.

(** *** The buffer of a state *)

Lemma joined_cons e below :
  below <> [] -> joined (e :: below) = joined below ++ sep :: e.
Proof. destruct below; [congruence | reflexivity]. Qed.

Lemma joined_nil stack : Forall nonempty stack -> joined stack = [] -> stack = [].
Proof.
  intros Hne Hj. destruct stack as [|e below]; [reflexivity|].
  inversion Hne as [|? ? He _]; subst. destruct below as [|e' below].
  - simpl in Hj. contradiction.
  - rewrite joined_cons in Hj by discriminate.
    apply app_eq_nil in Hj as [_ Hj]. discriminate.
Qed.

Lemma joined_app_length ns r :
  Forall nonempty ns ->
  length (joined r) <= length (joined (ns ++ r)) /\
  (ns <> [] -> length (joined r) < length (joined (ns ++ r))).
Proof.
  induction ns as [|e ns IH]; intros Hne.
  - simpl. split; [lia | congruence].
  - inversion Hne as [|? ? He Hns]; subst. destruct (IH Hns) as [IH1 _].
    assert (length (joined r) < length (joined ((e :: ns) ++ r))).
    { simpl app. destruct (ns ++ r) as [|e' below] eqn:E.
      - apply app_eq_nil in E as [_ ->]. simpl.
        destruct e; [contradiction | simpl; lia].
      - rewrite joined_cons by discriminate.
        rewrite length_app. change (length (sep :: e)) with (S (length e)). lia. }
    split; [lia | auto].
Qed.

Lemma nonempty_repeat_dotdot k : Forall nonempty (repeat dotdot k).
Proof. induction k; simpl; constructor; [discriminate | assumption]. Qed.

Lemma nonempty_names ns : Forall name ns -> Forall nonempty ns.
Proof.
  intros H. eapply Forall_impl; [exact H|]. intros e (_ & He & _). exact He.
Qed.

Lemma nonempty_stack rooted st : wf rooted st -> Forall nonempty (stack_of st).
Proof.
  intros [_ Hn]. unfold stack_of. apply Forall_app. split.
  - apply nonempty_names, Hn.
  - apply nonempty_repeat_dotdot.
Qed.

Lemma joined_pos stack :
  Forall nonempty stack -> stack <> [] -> 0 < length (joined stack).
Proof.
  intros Hne Hs. destruct (joined stack) eqn:J; [|simpl; lia].
  apply joined_nil in J; [contradiction | assumption].
Qed.

Lemma push_stack rooted stack e :
  Forall nonempty stack ->
  let out := prefix rooted ++ joined stack in
  (if (rooted && negb (length out =? 1)) || (negb rooted && negb (length out =? 0))
   then out ++ [Separator] else out) ++ e =
  prefix rooted ++ joined (e :: stack).
Proof.
  intros Hne out. subst out. destruct stack as [|e' below].
  - simpl joined. rewrite app_nil_r. destruct rooted; reflexivity.
  - rewrite (joined_cons e) by discriminate.
    pose proof (joined_pos (e' :: below) Hne ltac:(discriminate)) as Hlen.
    destruct (joined (e' :: below)) as [|x j]; [simpl in Hlen; lia|].
    destruct rooted; simpl; rewrite <- ?app_assoc; reflexivity.
Qed.

Lemma render_push rooted st e :
  wf rooted st ->
  (if (rooted && negb (length (render rooted st) =? 1)) ||
      (negb rooted && negb (length (render rooted st) =? 0))
   then render rooted st ++ [Separator] else render rooted st) ++ e =
  render rooted {| ups := ups st; names := e :: names st |}.
Proof.
  intros Hwf. apply (push_stack rooted (stack_of st) e).
  eapply nonempty_stack, Hwf.
Qed.

Lemma render_pop rooted st e ns :
  wf rooted st -> names st = e :: ns ->
  (dotdot_index rooted st <? length (render rooted st)) = true /\
  backtrack (render rooted st) (dotdot_index rooted st) =
  render rooted {| ups := ups st; names := ns |}.
Proof.
  intros Hwf Hn. pose proof Hwf as [Hr Hnames]. rewrite Hn in Hnames.
  inversion Hnames as [|? ? He Hns]; subst.
  destruct He as (Hfree & Hne & _).
  unfold render, dotdot_index, stack_of. rewrite Hn. simpl names. simpl ups.
  pose proof (joined_app_length ns (repeat dotdot (ups st)) (nonempty_names _ Hns)) as [Hle _].
  pose proof (joined_app_length (e :: ns) (repeat dotdot (ups st))
                (nonempty_names _ Hnames)) as [_ Hlt].
  specialize (Hlt ltac:(discriminate)).
  split.
  - apply Nat.ltb_lt. rewrite !length_app. lia.
  - simpl app at 2. destruct (ns ++ repeat dotdot (ups st)) as [|e' below] eqn:E.
    + apply app_eq_nil in E as [-> E]. rewrite E. simpl joined.
      rewrite app_nil_r. apply backtrack_first; assumption.
    + rewrite joined_cons by discriminate. rewrite app_assoc.
      apply backtrack_sep; [assumption|]. rewrite !length_app in *. lia.
Qed.

Lemma render_no_names rooted st :
  names st = [] -> (dotdot_index rooted st <? length (render rooted st)) = false.
Proof.
  intros Hn. unfold dotdot_index, render, stack_of. rewrite Hn. simpl.
  apply Nat.ltb_irrefl.
Qed.

Lemma render_up st :
  names st = [] ->
  let out2 := (if 0 <? length (render false st)
               then render false st ++ [Separator] else render false st) ++ dotdot in
  out2 = render false {| ups := S (ups st); names := [] |} /\
  length out2 = dotdot_index false {| ups := S (ups st); names := [] |}.
Proof.
  intros Hn out2.
  assert (E : out2 = render false {| ups := S (ups st); names := [] |}).
  { subst out2. unfold render, stack_of. rewrite Hn. simpl.
    destruct (repeat dotdot (ups st)) as [|e' below] eqn:E; [reflexivity|].
    assert (Hlen : 0 < length (joined (e' :: below))).
    { destruct (joined (e' :: below)) eqn:J; [|simpl; lia].
      apply joined_nil in J; [discriminate|].
      rewrite <- E. apply nonempty_repeat_dotdot. }
    apply Nat.ltb_lt in Hlen. rewrite Hlen, <- app_assoc. reflexivity. }
  split; [exact E|]. rewrite E. reflexivity.
Qed.

(** *** Steps *)

Lemma step_dotdot_pop rooted st e ns :
  names st = e :: ns -> step rooted st dotdot = {| ups := ups st; names := ns |}.
Proof. intros Hn. unfold step. simpl. rewrite Hn. reflexivity. Qed.

Lemma step_dotdot_up st :
  names st = [] -> step false st dotdot = {| ups := S (ups st); names := [] |}.
Proof. intros Hn. unfold step. simpl. rewrite Hn. reflexivity. Qed.

Lemma step_dotdot_root st : names st = [] -> step true st dotdot = st.
Proof. intros Hn. unfold step. simpl. rewrite Hn. reflexivity. Qed.

Lemma step_name rooted st e :
  name e -> step rooted st e = {| ups := ups st; names := e :: names st |}.
Proof.
  intros (_ & H1 & H2 & H3). unfold step.
  rewrite !bool_decide_eq_false_2 by assumption. reflexivity.
Qed.

Lemma element_cases e :
  sepfree e -> e = [] \/ e = dot \/ e = dotdot \/ name e.
Proof.
  intros He. destruct (decide (e = [])) as [|H1]; [auto|].
  destruct (decide (e = dot)) as [|H2]; [auto|].
  destruct (decide (e = dotdot)) as [|H3]; [auto|].
  right. right. right. repeat split; assumption.
Qed.

Lemma wf_step rooted st e : wf rooted st -> sepfree e -> wf rooted (step rooted st e).
Proof.
  intros Hwf He. pose proof Hwf as [Hr Hn].
  destruct (element_cases e He) as [-> | [-> | [-> | Hname]]]; try assumption.
  - destruct (names st) as [|e' ns] eqn:E.
    + destruct rooted.
      * rewrite step_dotdot_root; assumption.
      * rewrite step_dotdot_up by assumption. split; [discriminate | constructor].
    + rewrite (step_dotdot_pop _ _ _ _ E). split; [exact Hr|].
      simpl. inversion Hn; assumption.
  - rewrite step_name by assumption. split; [exact Hr|].
    simpl. constructor; assumption.
Qed.

Lemma wf_fold rooted es st :
  wf rooted st -> Forall sepfree es -> wf rooted (fold_left (step rooted) es st).
Proof.
  revert st. induction es as [|e es IH]; intros st Hwf Hes; [exact Hwf|].
  inversion Hes; subst. simpl. apply IH; [apply wf_step|]; assumption.
Qed.

(** *** The loop *)

Lemma isDot_true c : isDot c = true <-> c = "."%char.
Proof. unfold isDot. apply Ascii.eqb_eq. Qed.

(** The loop of [Clean], started in the buffer of a state, ends in the
    buffer of the state reached by reading the elements of the input. *)
Lemma clean_loop_lexical rooted fuel : forall rest st,
  length rest <= fuel -> wf rooted st ->
  clean_loop fuel rooted rest (render rooted st) (dotdot_index rooted st) =
  render rooted (fold_left (step rooted) (elements rest) st).
Proof.
  induction fuel as [|fuel IH]; intros rest st Hlen Hwf.
  - destruct rest; [reflexivity | simpl in Hlen; lia].
  - destruct rest as [|c rest1]; [reflexivity|].
    simpl in Hlen. cbn [clean_loop].
    destruct (IsPathSeparator c) eqn:Hc.
    { (* empty path element *)
      rewrite IH by (assumption || lia). cbn [elements]. rewrite Hc. reflexivity. }
    destruct (isDot c && endOrSep rest1) eqn:Hdot.
    { (* . element *)
      apply andb_true_iff in Hdot as [Hd Hend]. apply isDot_true in Hd. subst c.
      rewrite IH by (assumption || lia).
      change ("."%char :: rest1) with (dot ++ rest1).
      rewrite fold_elements_app by (exact sepfree_dot || exact Hend).
      reflexivity. }
    destruct (isDot c && isDot (hd Separator rest1) && endOrSep (tl rest1)) eqn:Hdd.
    { (* .. element *)
      apply andb_true_iff in Hdd as [Hdd Hend].
      apply andb_true_iff in Hdd as [Hd1 Hd2].
      apply isDot_true in Hd1. subst c.
      destruct rest1 as [|c1 rest2]; [discriminate|].
      cbn [hd tl length] in *. apply isDot_true in Hd2. subst c1.
      change ("."%char :: "."%char :: rest2) with (dotdot ++ rest2).
      rewrite fold_elements_app by (exact sepfree_dotdot || exact Hend).
      destruct (names st) as [|e ns] eqn:Hn.
      - rewrite render_no_names by assumption. destruct rooted; simpl negb; cbv iota.
        + rewrite step_dotdot_root by assumption. apply IH; [lia | assumption].
        + rewrite step_dotdot_up by assumption.
          destruct (render_up st Hn) as [E1 E2]. cbv zeta in E1, E2.
          change ["."%char; "."%char] with dotdot.
          rewrite E2, E1. apply IH; [lia|].
          split; [discriminate | constructor].
      - destruct (render_pop rooted st e ns Hwf Hn) as [E1 E2].
        rewrite E1, E2, (step_dotdot_pop _ _ _ _ Hn).
        apply (IH rest2 {| ups := ups st; names := ns |}); [lia|]. destruct Hwf as [Hr Hnames]. split; [exact Hr|].
        rewrite Hn in Hnames. inversion Hnames; assumption. }
    (* real path element *)
    match goal with
    | |- context [copy_element ?r ?o] =>
        destruct (copy_element_spec r o) as (e & rest' & Hsplit & He & Hend & Hcopy)
    end.
    rewrite Hcopy.
    assert (Hname : name e).
    { repeat split; [exact He | | |].
      - intros ->. simpl in Hsplit. subst rest'. simpl in Hend. congruence.
      - intros ->. simpl in Hsplit. injection Hsplit as -> ->.
        rewrite Hend in Hdot. discriminate.
      - intros ->. simpl in Hsplit. injection Hsplit as -> ->.
        cbn [hd tl] in Hdd. rewrite Hend in Hdd. discriminate. }
    rewrite Hsplit, fold_elements_app by assumption.
    rewrite step_name by assumption.
    rewrite render_push by assumption.
    apply (IH rest' {| ups := ups st; names := e :: names st |}).
    + assert (length (c :: rest1) = length (e ++ rest')) by (rewrite Hsplit; reflexivity).
      rewrite length_app in H. simpl in H.
      destruct e; [destruct Hname as (_ & Hne & _); contradiction | simpl in H; lia].
    + destruct Hwf as [Hr Hnames]. split; [exact Hr | constructor; assumption].
Qed.

(** The loop reads at least one byte in every iteration: any fuel that
    covers the unread input gives the same buffer. *)
Lemma clean_loop_fuel rooted fuel fuel' rest st :
  length rest <= fuel -> length rest <= fuel' -> wf rooted st ->
  clean_loop fuel rooted rest (render rooted st) (dotdot_index rooted st) =
  clean_loop fuel' rooted rest (render rooted st) (dotdot_index rooted st).
Proof.
  intros H H' Hwf. rewrite !clean_loop_lexical by assumption. reflexivity.
Qed.

Lemma wf_init rooted : wf rooted init.
Proof. split; [reflexivity | constructor]. Qed.

Lemma wf_reading path : wf (rooted_of path) (reading path).
Proof. apply wf_fold; [apply wf_init | apply elements_all_sepfree]. Qed.

Lemma finish_length out : (if length out =? 0 then ["."%char] else out) = finish out.
Proof. destruct out; reflexivity. Qed.

(** [Clean] is the lexical reading, rendered. *)
Theorem clean_lexical path :
  clean path = finish (render (rooted_of path) (reading path)).
Proof.
  destruct path as [|c path1]; [reflexivity|].
  unfold clean, reading. cbn [rooted_of]. rewrite finish_length. f_equal.
  destruct (IsPathSeparator c) eqn:Hc.
  - cbn [elements]. rewrite Hc. cbn [fold_left]. rewrite step_empty.
    apply (clean_loop_lexical true _ path1 init); [simpl; lia | apply wf_init].
  - apply (clean_loop_lexical false _ (c :: path1) init); [lia | apply wf_init].
Qed.

(** *** Reading a rendered state gives the state back *)

Lemma elements_app_sep x y : elements (x ++ sep :: y) = elements x ++ elements y.
Proof.
  induction x as [|c x IH]; [reflexivity|].
  cbn [app elements]. rewrite IH. destruct (IsPathSeparator c); [reflexivity|].
  pose proof (elements_nonempty x) as Hx.
  destruct (elements x); [contradiction | reflexivity].
Qed.

Lemma elements_joined stack :
  stack <> [] -> Forall sepfree stack -> elements (joined stack) = rev stack.
Proof.
  induction stack as [|e below IH]; intros Hne Hfree; [contradiction|].
  inversion Hfree as [|? ? He Hbelow]; subst.
  destruct below as [|e' below].
  - simpl. apply elements_sepfree, He.
  - rewrite joined_cons by discriminate.
    rewrite elements_app_sep, IH by (assumption || discriminate).
    rewrite elements_sepfree by assumption. reflexivity.
Qed.

Lemma joined_head stack :
  stack <> [] -> Forall sepfree stack -> Forall nonempty stack ->
  rooted_of (joined stack) = false.
Proof.
  induction stack as [|e below IH]; intros Hne Hfree Hnon; [contradiction|].
  inversion Hfree as [|? ? He Hbelow]; inversion Hnon as [|? ? Hen Hbn]; subst.
  destruct below as [|e' below].
  - simpl. destruct e as [|c e]; [contradiction|].
    apply sepfree_cons in He as [Hc _]. exact Hc.
  - rewrite joined_cons by discriminate.
    specialize (IH ltac:(discriminate) Hbelow Hbn).
    pose proof (joined_pos (e' :: below) Hbn ltac:(discriminate)) as Hpos.
    destruct (joined (e' :: below)); [simpl in Hpos; lia | exact IH].
Qed.

Lemma fold_ups k : fold_left (step false) (repeat dotdot k) init = {| ups := k; names := [] |}.
Proof.
  assert (G : forall n j, fold_left (step false) (repeat dotdot n) {| ups := j; names := [] |}
                          = {| ups := n + j; names := [] |}).
  { induction n as [|n IH]; intros j; [reflexivity|].
    cbn [repeat fold_left]. rewrite step_dotdot_up by reflexivity.
    cbn [ups]. rewrite IH. f_equal. lia. }
  unfold init. rewrite G. f_equal. lia.
Qed.

Lemma fold_names rooted l : forall k ns,
  Forall name l ->
  fold_left (step rooted) l {| ups := k; names := ns |} =
  {| ups := k; names := rev l ++ ns |}.
Proof.
  induction l as [|e l IH]; intros k ns Hl; [reflexivity|].
  inversion Hl; subst. cbn [fold_left]. rewrite step_name by assumption.
  cbn [ups names]. rewrite IH by assumption.
  cbn [rev]. rewrite <- app_assoc. reflexivity.
Qed.

Lemma sepfree_stack rooted st : wf rooted st -> Forall sepfree (stack_of st).
Proof.
  intros [_ Hn]. unfold stack_of. apply Forall_app. split.
  - eapply Forall_impl; [exact Hn|]. intros e (He & _). exact He.
  - clear. induction (ups st); simpl; constructor; [exact sepfree_dotdot | assumption].
Qed.

Lemma rev_repeat {A} (x : A) k : rev (repeat x k) = repeat x k.
Proof.
  induction k as [|k IH]; [reflexivity|].
  cbn [repeat rev]. rewrite IH. clear.
  induction k as [|k IH]; [reflexivity|]. cbn [repeat app]. rewrite IH. reflexivity.
Qed.

Lemma fold_stack rooted st :
  wf rooted st ->
  fold_left (step rooted) (rev (stack_of st)) init = st.
Proof.
  intros [Hr Hn]. destruct st as [k ns]. cbn [ups names] in *.
  unfold stack_of. cbn [ups names]. rewrite rev_app_distr, rev_repeat, fold_left_app.
  assert (E : fold_left (step rooted) (repeat dotdot k) init = {| ups := k; names := [] |}).
  { destruct rooted; [rewrite Hr by reflexivity; reflexivity | apply fold_ups]. }
  rewrite E, fold_names.
  - rewrite rev_involutive, app_nil_r. reflexivity.
  - apply Forall_rev. exact Hn.
Qed.

Lemma rooted_of_render rooted st :
  wf rooted st -> stack_of st <> [] -> rooted_of (render rooted st) = rooted.
Proof.
  intros Hwf Hs. unfold render. destruct rooted; [reflexivity|].
  apply joined_head; [assumption | eapply sepfree_stack | eapply nonempty_stack];
    exact Hwf.
Qed.

Lemma reading_render rooted st :
  wf rooted st -> stack_of st <> [] -> reading (render rooted st) = st.
Proof.
  intros Hwf Hs. unfold reading. rewrite rooted_of_render by assumption.
  unfold render. destruct rooted; cbn [prefix app].
  - cbn [elements]. change (IsPathSeparator sep) with true. cbv iota.
    cbn [fold_left]. rewrite step_empty.
    rewrite elements_joined by (assumption || eapply sepfree_stack, Hwf).
    apply fold_stack, Hwf.
  - rewrite elements_joined by (assumption || eapply sepfree_stack, Hwf).
    apply fold_stack, Hwf.
Qed.

Lemma render_nonempty rooted st :
  wf rooted st -> stack_of st <> [] -> finish (render rooted st) = render rooted st.
Proof.
  intros Hwf Hs. pose proof (joined_pos _ (nonempty_stack _ _ Hwf) Hs) as Hpos.
  unfold render. destruct (joined (stack_of st)); [simpl in Hpos; lia|].
  destruct rooted; reflexivity.
Qed.

(** [Clean] is idempotent on bytes. *)
Theorem clean_idempotent path : clean (clean path) = clean path.
Proof.
  rewrite (clean_lexical path).
  pose proof (wf_reading path) as Hwf.
  set (rooted := rooted_of path) in *. set (st := reading path) in *.
  destruct (stack_of st) as [|e below] eqn:Hs.
  - unfold render. rewrite Hs. destruct rooted; reflexivity.
  - assert (Hne : stack_of st <> []) by (rewrite Hs; discriminate).
    rewrite render_nonempty by assumption.
    rewrite clean_lexical, rooted_of_render, reading_render by assumption.
    apply render_nonempty; assumption.
Qed.

Lemma clean_nonempty path : clean path <> [].
Proof.
  rewrite clean_lexical. destruct (render _ _); discriminate.
Qed.

End CleanLexical.

(** ** Facts about paths as strings *)

Lemma bytes_of_string_of l : bytes_of (string_of l) = l.
Proof. apply list_ascii_of_string_of_list_ascii. Qed.

Lemma string_of_bytes_of s : string_of (bytes_of s) = s.
Proof. apply string_of_list_ascii_of_string. Qed.

Lemma Clean_idempotent s : filepath.Clean (filepath.Clean s) = filepath.Clean s.
Proof.
  unfold filepath.Clean. rewrite bytes_of_string_of, clean_idempotent. reflexivity.
Qed.

(** A cleaned byte string, as a string, is a fixed point of [Clean]. *)
Lemma Clean_string_of_clean l :
  filepath.Clean (string_of (filepath.clean l)) = string_of (filepath.clean l).
Proof.
  unfold filepath.Clean. rewrite bytes_of_string_of, clean_idempotent. reflexivity.
Qed.

Lemma Clean_nonempty s : filepath.Clean s <> "".
Proof.
  unfold filepath.Clean. intros H.
  apply (f_equal bytes_of) in H. rewrite bytes_of_string_of in H.
  exact (clean_nonempty _ H).
Qed.

Lemma Clean_Dir s : filepath.Clean (filepath.Dir s) = filepath.Dir s.
Proof. apply Clean_string_of_clean. Qed.

Lemma Join_nonempty a b :
  a <> "" ->
  filepath.Join [a; b] =
  string_of (filepath.clean (bytes_of a ++ [filepath.Separator] ++ bytes_of b)).
Proof.
  intros Ha. unfold filepath.Join. cbn [map filepath.join].
  destruct (bytes_of a) eqn:E; [|reflexivity].
  apply (f_equal string_of) in E. rewrite string_of_bytes_of in E. contradiction.
Qed.

Lemma Clean_Join a b : a <> "" -> filepath.Clean (filepath.Join [a; b]) = filepath.Join [a; b].
Proof. intros Ha. rewrite Join_nonempty by assumption. apply Clean_string_of_clean. Qed.

(** ** Normalized paths *)

Lemma normalized_NewPath s : normalized (NewPath s).
Proof. apply Clean_idempotent. Qed.

Lemma normalized_Parent p : normalized (Parent p).
Proof. apply Clean_Dir. Qed.

Lemma normalized_nonempty p : normalized p -> path p <> "".
Proof. intros H. rewrite <- H. apply Clean_nonempty. Qed.

Lemma normalized_Join p other : normalized p -> normalized (Join p other).
Proof. intros H. apply Clean_Join, normalized_nonempty, H. Qed.

Lemma normalized_Parents_loop n : forall current parents,
  Forall normalized parents -> Forall normalized (Parents_loop n current parents).
Proof.
  induction n as [|n IH]; intros current parents Hp; [exact Hp|].
  cbn [Parents_loop].
  destruct (bool_decide _ || bool_decide _); [exact Hp|].
  apply IH. apply Forall_app. split; [exact Hp|].
  constructor; [apply normalized_Parent | constructor].
Qed.

Lemma last_parent_In parents q : last_parent parents = Returns q -> In q parents.
Proof.
  destruct parents as [|p0 parents]; [discriminate|].
  intros [= <-]. clear.
  assert (G : forall (l : list Path) d, In (List.last l d) (d :: l)).
  { induction l as [|x l IH]; intros d; [left; reflexivity|].
    destruct l as [|y l]; [right; left; reflexivity|].
    destruct (IH d) as [E|H]; [left; exact E | right; right; exact H]. }
  destruct parents as [|x parents]; [left; reflexivity | apply G].
Qed.

Lemma normalized_Parents p depth q : Parents p depth = Returns q -> normalized q.
Proof.
  unfold Parents. intros H. apply last_parent_In in H.
  pose proof (normalized_Parents_loop (N.to_nat (uint_incr depth)) p [] ltac:(constructor)) as F.
  rewrite Forall_forall in F. apply F, list_elem_of_In, H.
Qed.

(** ** Unfolding the walk *)

Section WalkEquations.
Context {S : Type} (walkFn : WalkFunc S).

Lemma walk_file path info dir s :
  fi_IsDir info = false -> walk walkFn path info dir s = walkFn path (Visit info) s.
Proof. intros H. destruct dir; simpl; rewrite H; reflexivity. Qed.

Lemma walk_ReadDirErr path info err s :
  fi_IsDir info = true ->
  walk walkFn path info (ReadDirErr err) s = walkFn path (VisitErr (Some info) err) s.
Proof. intros H. simpl. rewrite H. reflexivity. Qed.

Lemma walk_ReadDirOk path info entries s :
  fi_IsDir info = true ->
  walk walkFn path info (ReadDirOk entries) s =
  let '(err1, s1) := walkFn path (Visit info) s in
  match err1 with
  | Some _ => (err1, s1)
  | None => walk_names walkFn path entries s1
  end.
Proof. intros H. simpl. rewrite H. reflexivity. Qed.

Lemma walk_names_LstatErr path name err rest s :
  walk_names walkFn path (WCons name (LstatErr err) rest) s =
  let '(e, s1) := walkFn (filepath.Join [path; name]) (VisitErr None err) s in
  match e with
  | Some e' => if negb (isSkipDir e') then (Some e', s1)
               else walk_names walkFn path rest s1
  | None => walk_names walkFn path rest s1
  end.
Proof. reflexivity. Qed.

Lemma walk_names_LstatOk path name fileInfo dir rest s :
  walk_names walkFn path (WCons name (LstatOk fileInfo dir) rest) s =
  let '(e, s1) := walk walkFn (filepath.Join [path; name]) fileInfo dir s in
  match e with
  | Some e' => if negb (fi_IsDir fileInfo) || negb (isSkipDir e') then (Some e', s1)
               else walk_names walkFn path rest s1
  | None => walk_names walkFn path rest s1
  end.
Proof. reflexivity. Qed.
End WalkEquations.

Lemma files_dir_file path info dir : fi_IsDir info = false -> files_dir path info dir = [path].
Proof. intros H. destruct dir; simpl; rewrite H; reflexivity. Qed.

Lemma files_dir_ReadDirErr path info err :
  fi_IsDir info = true -> files_dir path info (ReadDirErr err) = [].
Proof. intros H. simpl. rewrite H. reflexivity. Qed.

Lemma files_dir_ReadDirOk path info entries :
  fi_IsDir info = true -> files_dir path info (ReadDirOk entries) = files_entries path entries.
Proof. intros H. simpl. rewrite H. reflexivity. Qed.

Lemma files_entries_LstatOk path name info dir rest :
  files_entries path (WCons name (LstatOk info dir) rest) =
  files_dir (filepath.Join [path; name]) info dir ++ files_entries path rest.
Proof. reflexivity. Qed.

Lemma files_entries_LstatErr path name err rest :
  files_entries path (WCons name (LstatErr err) rest) = files_entries path rest.
Proof. reflexivity. Qed.

(** ** [splitPath] on a cleaned path *)

Section SplitClean.
Import filepath Lexical.

Lemma joined_ends e below : exists pre, joined (e :: below) = pre ++ e.
Proof.
  destruct below as [|e' below].
  - exists []. reflexivity.
  - exists (joined (e' :: below) ++ [sep]). rewrite joined_cons by discriminate.
    rewrite <- app_assoc. reflexivity.
Qed.

Lemma sepfree_last e :
  sepfree e -> e <> [] -> ends_in_name e.
Proof.
  intros He Hne. destruct (exists_last Hne) as (body & c & ->).
  exists body, c. split; [reflexivity|].
  unfold sepfree in He. rewrite Forall_forall in He.
  apply He, list_elem_of_In, in_or_app. right. left. reflexivity.
Qed.

(** A cleaned path ends in a separator only when it is the root. *)
Lemma clean_ends_in_name x : clean x <> [sep] -> ends_in_name (clean x).
Proof.
  rewrite clean_lexical. pose proof (wf_reading x) as Hwf.
  set (rooted := rooted_of x) in *. set (st := reading x) in *.
  destruct (stack_of st) as [|e below] eqn:Hs.
  - unfold render. rewrite Hs. destruct rooted; simpl.
    + intros H. contradiction.
    + intros _. exists [], "."%char. split; reflexivity.
  - intros _. assert (Hne : stack_of st <> []) by (rewrite Hs; discriminate).
    rewrite render_nonempty by assumption. unfold render. rewrite Hs.
    destruct (joined_ends e below) as (pre & ->).
    pose proof (sepfree_stack _ _ Hwf) as Hfree.
    pose proof (nonempty_stack _ _ Hwf) as Hnon.
    rewrite Hs in Hfree, Hnon. inversion Hfree; inversion Hnon; subst.
    destruct (sepfree_last e) as (body & c & -> & Hc); [assumption..|].
    exists (prefix rooted ++ pre ++ body), c. rewrite <- !app_assoc. auto.
Qed.

Lemma HasSuffix_snoc body c0 c : strings.HasSuffix (body ++ [c0]) c = Ascii.eqb c0 c.
Proof.
  induction body as [|x body IH]; [reflexivity|].
  cbn [app strings.HasSuffix]. rewrite IH.
  destruct (body ++ [c0]) eqn:E; [|reflexivity].
  apply app_eq_nil in E as [_ E]. discriminate.
Qed.

Lemma TrimRight_snoc body c0 c :
  Ascii.eqb c0 c = false -> strings.TrimRight (body ++ [c0]) c = body ++ [c0].
Proof.
  intros Hc. induction body as [|x body IH].
  - simpl. rewrite Hc. reflexivity.
  - cbn [app strings.TrimRight]. rewrite IH.
    destruct (body ++ [c0]) eqn:E; [|reflexivity].
    apply app_eq_nil in E as [_ E]. discriminate.
Qed.

Lemma LastIndex_snoc body c0 c :
  Ascii.eqb c0 c = false -> strings.LastIndex (body ++ [c0]) c = strings.LastIndex body c.
Proof.
  intros Hc. induction body as [|x body IH].
  - simpl. rewrite Hc. reflexivity.
  - cbn [app strings.LastIndex]. rewrite IH. reflexivity.
Qed.

Lemma LastIndex_lt s c i : strings.LastIndex s c = Some i -> i < length s.
Proof.
  revert i. induction s as [|x s IH]; intros i; [discriminate|].
  cbn [strings.LastIndex length].
  destruct (strings.LastIndex s c) as [j|].
  - intros [= <-]. specialize (IH j eq_refl). lia.
  - destruct (Ascii.eqb x c); [intros [= <-]; lia | discriminate].
Qed.

(** On a path whose last byte is not a separator the file portion of
    [splitPath] is not empty. *)
Lemma splitPath_file s : ends_in_name s -> (splitPath s).2 <> [].
Proof.
  intros (body & c0 & -> & Hc). unfold splitPath.
  change (Ascii.eqb c0 Separator = false) in Hc.
  rewrite TrimRight_snoc, LastIndex_snoc, HasSuffix_snoc, Hc by assumption.
  destruct (strings.LastIndex body Separator) as [i|] eqn:Hi; cbn [snd].
  - apply LastIndex_lt in Hi. intros H.
    apply (f_equal (@length ascii)) in H.
    rewrite length_skipn, length_app in H. simpl in H. lia.
  - intros H. apply app_eq_nil in H as [_ H]. discriminate.
Qed.

End SplitClean.

(** ** The effectful operations *)

Section Effects.
Context {World : Type} `{!Host World}.

Lemma adds_nothing pattern fs matches e : adds pattern fs matches (e, matches).
Proof. exists []. rewrite app_nil_r. split; [reflexivity | constructor]. Qed.

Lemma matching_mono pattern fs fs' q :
  (forall f, In f fs -> In f fs') -> matching pattern fs q -> matching pattern fs' q.
Proof. intros Hsub (f & Hf & Hq & Hm). exists f. auto. Qed.

Lemma adds_mono pattern fs fs' matches r :
  (forall f, In f fs -> In f fs') -> adds pattern fs matches r -> adds pattern fs' matches r.
Proof.
  intros Hsub (added & E & F). exists added. split; [exact E|].
  eapply Forall_impl; [exact F|]. intros q. apply matching_mono, Hsub.
Qed.

Lemma adds_trans pattern fs matches e r' :
  forall r, adds pattern fs matches (e, r) -> adds pattern fs r r' ->
            adds pattern fs matches r'.
Proof.
  intros r (a1 & E1 & F1) (a2 & E2 & F2). simpl in E1. subst r.
  exists (a1 ++ a2). rewrite E2, app_assoc. split; [reflexivity|].
  apply Forall_app. auto.
Qed.

(** The walk function on a file adds the file, if anything. *)
Lemma FindOne_fn_file pattern path info matches :
  fi_IsDir info = false ->
  adds pattern [path] matches (FindOne_fn pattern path (Visit info) matches).
Proof.
  intros Hd. unfold FindOne_fn. rewrite Hd.
  destruct (filepath_Match pattern (filepath.Base path)) as [[|] [e|]] eqn:Hm;
    try apply adds_nothing.
  exists [NewPath path]. split; [reflexivity|].
  constructor; [|constructor]. exists path. split; [left; reflexivity | auto].
Qed.

Lemma FindOne_fn_other pattern path arg matches fs :
  match arg with Visit info => fi_IsDir info = true | VisitErr _ _ => True end ->
  adds pattern fs matches (FindOne_fn pattern path arg matches).
Proof.
  intros H. destruct arg as [info|info err]; simpl.
  - rewrite H. apply adds_nothing.
  - apply adds_nothing.
Qed.

(** Every path a walk adds to [matches] is a file under the root whose
    base name matches the pattern. *)
Lemma walk_adds pattern :
  forall dir path info matches,
    adds pattern (files_dir path info dir) matches
         (walk (FindOne_fn pattern) path info dir matches).
Proof.
  apply (wdir_ind'
    (fun t => match t with
              | LstatErr _ => True
              | LstatOk info dir => forall path matches,
                  adds pattern (files_dir path info dir) matches
                       (walk (FindOne_fn pattern) path info dir matches)
              end)
    (fun dir => forall path info matches,
         adds pattern (files_dir path info dir) matches
              (walk (FindOne_fn pattern) path info dir matches))
    (fun entries => forall path matches,
         adds pattern (files_entries path entries) matches
              (walk_names (FindOne_fn pattern) path entries matches))).
  - (* LstatErr *) exact (fun _ => I).
  - (* LstatOk *) intros info dir IH path matches. apply IH.
  - (* ReadDirErr *)
    intros err path info matches.
    destruct (fi_IsDir info) eqn:Hd.
    + rewrite walk_ReadDirErr by assumption. apply adds_nothing.
    + rewrite walk_file, files_dir_file by assumption. apply FindOne_fn_file, Hd.
  - (* ReadDirOk *)
    intros entries IH path info matches.
    destruct (fi_IsDir info) eqn:Hd.
    + rewrite walk_ReadDirOk, files_dir_ReadDirOk by assumption.
      unfold FindOne_fn at 1. rewrite Hd. apply IH.
    + rewrite walk_file, files_dir_file by assumption. apply FindOne_fn_file, Hd.
  - (* WNil *)
    intros path matches. apply adds_nothing.
  - (* WCons *)
    intros name t IHt rest IHrest path matches.
    destruct t as [err|fileInfo dir].
    + rewrite walk_names_LstatErr, files_entries_LstatErr. cbn [FindOne_fn].
      destruct (negb (isSkipDir err)).
      * apply adds_nothing.
      * apply IHrest.
    + rewrite walk_names_LstatOk, files_entries_LstatOk.
      specialize (IHt (filepath.Join [path; name]) matches).
      destruct (walk (FindOne_fn pattern) (filepath.Join [path; name]) fileInfo dir matches)
        as [e s1] eqn:Hw.
      assert (Hhere : adds pattern
                (files_dir (filepath.Join [path; name]) fileInfo dir ++ files_entries path rest)
                matches (e, s1)).
      { eapply adds_mono; [|exact IHt]. intros f Hf. apply in_or_app. left. exact Hf. }
      assert (Hrest : adds pattern
                (files_dir (filepath.Join [path; name]) fileInfo dir ++ files_entries path rest)
                s1 (walk_names (FindOne_fn pattern) path rest s1)).
      { eapply adds_mono; [|apply IHrest]. intros f Hf. apply in_or_app. right. exact Hf. }
      destruct e as [e'|].
      * destruct (negb (fi_IsDir fileInfo) || negb (isSkipDir e')).
        -- destruct Hhere as (added & E & F). exists added. split; assumption.
        -- eapply adds_trans; eassumption.
      * eapply adds_trans; eassumption.
Qed.

Lemma Walk_adds pattern t root :
  adds pattern (files t root) [] (Walk (FindOne_fn pattern) t root []).
Proof.
  unfold Walk. destruct t as [err|info dir].
  - cbn [FindOne_fn files]. destruct (isSkipDir err || isSkipAll err); apply adds_nothing.
  - pose proof (walk_adds pattern dir root info []) as (added & E & F).
    cbn [files].
    destruct (walk (FindOne_fn pattern) root info dir []) as [e s1].
    simpl in E. subst s1.
    assert (G : forall e', adds pattern (files_dir root info dir) [] (e', [] ++ added)).
    { intros e'. exists added. split; [reflexivity | exact F]. }
    destruct e as [e|]; [destruct (isSkipDir e || isSkipAll e)|]; apply G.
Qed.

(** What [FindOne] finds are files under the root that match. *)
Lemma found_matching p pattern w :
  Forall (matching pattern (files (os_walkTree w (path p)) (path p))) (found p pattern w).
Proof.
  unfold found.
  destruct (Walk_adds pattern (os_walkTree w (path p)) (path p)) as (added & E & F).
  rewrite E. exact F.
Qed.

Lemma FindOne_found p pattern st :
  (FindOne p pattern st).1 = found p pattern (world st) /\
  world (FindOne p pattern st).2 = world st.
Proof.
  unfold FindOne, found, mbind, M_bind, bind, query.
  destruct (Walk (FindOne_fn pattern) (os_walkTree (world st) (path p)) (path p) [])
    as [[e|] matches]; split; reflexivity.
Qed.

Lemma Find_loop_spec p : forall patterns dict st,
  let r := Find_loop p patterns dict st in
  world r.2 = world st /\
  forall pattern,
    r.1 !! pattern =
    if bool_decide (pattern ∈ patterns) then Some (found p pattern (world st))
    else dict !! pattern.
Proof.
  induction patterns as [|pat rest IH]; intros dict st r.
  - split; [reflexivity|]. intros pattern.
    rewrite bool_decide_eq_false_2 by apply not_elem_of_nil. reflexivity.
  - subst r. cbn [Find_loop]. unfold mbind, M_bind, bind.
    destruct (FindOne_found p pat st) as [E1 E2].
    destruct (FindOne p pat st) as [fnd st1]. simpl in E1, E2. subst fnd.
    destruct (IH (<[pat := found p pat (world st)]> dict) st1) as [Hw Hl].
    rewrite E2 in Hw, Hl. split; [exact Hw|].
    intros pattern. rewrite Hl.
    destruct (decide (pattern ∈ rest)) as [Hin|Hnin].
    + rewrite !bool_decide_eq_true_2; [reflexivity | right; exact Hin | exact Hin].
    + rewrite (bool_decide_eq_false_2 _ Hnin).
      destruct (decide (pattern = pat)) as [->|Hne].
      * rewrite lookup_insert_eq, bool_decide_eq_true_2 by left. reflexivity.
      * rewrite lookup_insert_ne by congruence.
        rewrite bool_decide_eq_false_2; [reflexivity|].
        intros Hc. apply elem_of_cons in Hc as [?|?]; contradiction.
Qed.

Lemma Find_lookup p patterns st pattern :
  (Find p patterns st).1 !! pattern =
  if bool_decide (pattern ∈ patterns) then Some (found p pattern (world st)) else None.
Proof.
  destruct (Find_loop_spec p patterns ∅ st) as [_ H]. unfold Find.
  rewrite H, lookup_empty. reflexivity.
Qed.

(** C5: [Find] returns a map with an entry for every input pattern, the
    entry being what [FindOne] returns for it; when no file under the
    root has a base name the pattern matches, the entry is the empty
    sequence (so it is on an empty directory tree). *)
Theorem Find_entry_for_every_pattern p patterns pattern st :
  In pattern patterns ->
  (Find p patterns st).1 !! pattern = Some (FindOne p pattern st).1 /\
  ((forall f, In f (files (os_walkTree (world st) (path p)) (path p)) ->
              filepath_Match pattern (filepath.Base f) <> (true, None)) ->
   (Find p patterns st).1 !! pattern = Some []).
Proof.
  intros Hin. apply list_elem_of_In in Hin.
  rewrite Find_lookup, bool_decide_eq_true_2 by assumption.
  destruct (FindOne_found p pattern st) as [-> _]. split; [reflexivity|].
  intros Hnone. f_equal.
  pose proof (found_matching p pattern (world st)) as F.
  destruct (found p pattern (world st)) as [|q qs]; [reflexivity|].
  inversion F as [|? ? (f & Hf & _ & Hm) _]; subst.
  exfalso. exact (Hnone f Hf Hm).
Qed.

(** C6: [Read] returns the bytes [os.ReadFile] read (an empty byte
    sequence for an empty file, which is not nil), returns nil exactly
    when [os.ReadFile] fails, and changes nothing. *)
Theorem Read_bytes_or_nil p st :
  (forall data, os_ReadFile (world st) (String p) = Ok data ->
                (Read p st).1 = Bytes data /\ Bytes data <> nil) /\
  (os_ReadFile (world st) (String p) = Ok [] -> (Read p st).1 = Bytes []) /\
  ((Read p st).1 = nil <-> exists e, os_ReadFile (world st) (String p) = Err e) /\
  (Read p st).2 = st.
Proof.
  unfold Read, mbind, M_bind, bind, query, ret.
  destruct (os_ReadFile (world st) (String p)) as [data|e]; simpl.
  - split; [intros ? [= <-]; split; [reflexivity | discriminate]|].
    split; [intros [= ->]; reflexivity|].
    split; [|reflexivity].
    split; [discriminate | intros [e He]; discriminate].
  - split; [discriminate|]. split; [discriminate|].
    split; [|reflexivity]. split; [eauto | reflexivity].
Qed.

Lemma Exists_stat p st :
  Exists p st = (match os_Stat (world st) (path p) with Ok _ => true | Err _ => false end, st).
Proof.
  unfold Exists, mbind, M_bind, bind, query, ret.
  destruct (os_Stat (world st) (path p)); reflexivity.
Qed.

Lemma Delete_missing p st : (Exists p st).1 = false -> Delete p st = (true, st).
Proof.
  unfold Delete, mbind, M_bind, bind. rewrite Exists_stat. simpl.
  intros ->. reflexivity.
Qed.

Lemma Delete_present p st :
  (Exists p st).1 = true ->
  Delete p st =
  match os_RemoveAll (String p) (world st) with
  | (Some e, w) =>
      (false, {| world := w;
                 stdout := stdout st ++ ["Error Deleting path: " +:+ Error e] |})
  | (None, w) => (true, {| world := w; stdout := stdout st |})
  end.
Proof.
  unfold Delete, mbind, M_bind, bind. rewrite Exists_stat. simpl.
  intros ->. unfold syscall. simpl.
  destruct (os_RemoveAll (String p) (world st)) as [[e|] w]; reflexivity.
Qed.

(** C7: [Delete] returns true when the path does not exist and when
    [os.RemoveAll] succeeds; it returns false only when the path exists
    and [os.RemoveAll] fails; a second [Delete] on the path, now
    missing, returns true. *)
Theorem Delete_result p st :
  ((Exists p st).1 = false -> (Delete p st).1 = true) /\
  ((Exists p st).1 = true -> (os_RemoveAll (String p) (world st)).1 = None ->
   (Delete p st).1 = true) /\
  ((Delete p st).1 = false ->
   (Exists p st).1 = true /\
   exists e, (os_RemoveAll (String p) (world st)).1 = Some e) /\
  ((Exists p (Delete p st).2).1 = false -> (Delete p (Delete p st).2).1 = true).
Proof.
  split; [intros H; rewrite Delete_missing by assumption; reflexivity|].
  split.
  { intros H Hr. rewrite Delete_present by assumption.
    destruct (os_RemoveAll (String p) (world st)) as [[e|] w]; [discriminate | reflexivity]. }
  split.
  { destruct ((Exists p st).1) eqn:He.
    - rewrite Delete_present by assumption.
      destruct (os_RemoveAll (String p) (world st)) as [[e|] w]; simpl.
      + intros _. split; [reflexivity | eauto].
      + discriminate.
    - rewrite Delete_missing by assumption. discriminate. }
  intros H. rewrite Delete_missing by assumption. reflexivity.
Qed.

(** C10: when [os.Stat] fails, for whatever reason, [Exists] is false
    and [Delete] returns true without calling [os.RemoveAll]: the world
    and the output are as before. *)
Theorem Delete_skips_removal_on_stat_error p st e :
  os_Stat (world st) (path p) = Err e ->
  (Exists p st).1 = false /\ Delete p st = (true, st).
Proof.
  intros Hs. assert (He : (Exists p st).1 = false).
  { rewrite Exists_stat, Hs. reflexivity. }
  split; [exact He | apply Delete_missing, He].
Qed.

Lemma Mkdir_result p st :
  Mkdir p st =
  match os_MkdirAll (String p) perm_0755 (world st) with
  | (Some e, w) => (Some (Errorf "failed to create directory: " e),
                    {| world := w; stdout := stdout st |})
  | (None, w) => (None, {| world := w; stdout := stdout st |})
  end.
Proof.
  unfold Mkdir, mbind, M_bind, bind, syscall.
  destruct (os_MkdirAll (String p) perm_0755 (world st)) as [[e|] w]; reflexivity.
Qed.

Lemma createPath_result pathname st st' :
  (createPath pathname st).1 = (createPath pathname st').1.
Proof.
  unfold createPath. destruct (splitPath (bytes_of pathname)) as [folder file].
  unfold mbind, M_bind, bind, ret.
  repeat match goal with
         | |- context [if ?b then _ else _] => destruct b
         | |- context [let '(_, _) := ?m in _] => destruct m
         end; reflexivity.
Qed.

(** C3: as the code has it, [Mkdir] and [Touch] hand a failed system
    call to their caller as an error carrying the cause; [Create] drops
    what they return, and the Path it returns is the same in every
    state, whether or not a step failed. *)
Theorem creation_steps_report_Create_does_not :
  (forall p st e w,
      os_MkdirAll (String p) perm_0755 (world st) = (Some e, w) ->
      (Mkdir p st).1 = Some (Errorf "failed to create directory: " e)) /\
  (forall p name st e,
      os_Stat (world st) (filepath.Join [String p; name]) = Err e ->
      IsNotExist (Some e) = false ->
      (Touch p name st).1 = Some (Errorf "failed to check file status: " e)) /\
  (forall p name st e e' w,
      os_Stat (world st) (filepath.Join [String p; name]) = Err e ->
      IsNotExist (Some e) = true ->
      os_Create (filepath.Join [String p; name]) (world st) = (Some e', w) ->
      (Touch p name st).1 = Some (Errorf "failed to create file: " e')) /\
  (forall p pathname st st', (Create p pathname st).1 = (Create p pathname st').1).
Proof.
  split; [|split; [|split]].
  - intros p st e w H. rewrite Mkdir_result, H. reflexivity.
  - intros p name st e Hs Hn. unfold Touch, mbind, M_bind, bind, query.
    rewrite Hs, Hn. reflexivity.
  - intros p name st e e' w Hs Hn Hc. unfold Touch, mbind, M_bind, bind, query, syscall.
    rewrite Hs, Hn. simpl. rewrite Hc. reflexivity.
  - intros p pathname st st'. apply createPath_result.
Qed.

Lemma createPath_normalized pathname st : normalized (createPath pathname st).1.
Proof.
  unfold createPath. destruct (splitPath (bytes_of pathname)) as [folder file].
  unfold mbind, M_bind, bind, ret.
  repeat match goal with
         | |- context [if ?b then _ else _] => destruct b
         | |- context [let '(_, _) := ?m in _] => destruct m
         end; apply normalized_NewPath.
Qed.

Lemma GetBaseDir_normalized st : normalized (GetBaseDir st).1.
Proof.
  unfold GetBaseDir, mbind, M_bind, bind, query.
  destruct (os_Getwd (world st)); apply normalized_NewPath.
Qed.

Lemma found_normalized p pattern w : Forall normalized (found p pattern w).
Proof.
  eapply Forall_impl; [apply found_matching|].
  intros q (f & _ & -> & _). apply normalized_NewPath.
Qed.

(** C8: every Path the operations of the package produce ([NewPath],
    [GetBaseDir], [Join], [Parent], [Parents], [Create], and the
    results of [FindOne] and [Find]) holds a fixed point of [Clean]. *)
Theorem produced_normalized p : produced p -> filepath.Clean (path p) = path p.
Proof.
  induction 1 as [s | st | p other _ IH | p _ _ | p depth q _ _ Hq
                 | p pathname st _ _ | p pattern st q _ _ Hq
                 | p patterns st pattern qs q _ _ Hl Hq].
  - apply normalized_NewPath.
  - apply GetBaseDir_normalized.
  - apply normalized_Join, IH.
  - apply normalized_Parent.
  - eapply normalized_Parents, Hq.
  - apply createPath_normalized.
  - destruct (FindOne_found p pattern st) as [E _]. rewrite E in Hq.
    pose proof (found_normalized p pattern (world st)) as F.
    rewrite Forall_forall in F. apply F, list_elem_of_In, Hq.
  - rewrite Find_lookup in Hl. destruct (bool_decide _); [|discriminate].
    injection Hl as <-.
    pose proof (found_normalized p pattern (world st)) as F.
    rewrite Forall_forall in F. apply F, list_elem_of_In, Hq.
Qed.

Lemma Join_cleaned p other :
  path p <> "" -> path (Join p other) = string_of (filepath.clean
    (bytes_of (path p) ++ [filepath.Separator] ++ bytes_of other)).
Proof. intros H. apply Join_nonempty, H. Qed.

(** C1: whatever [pathname] ends with, unless the joined path is the
    root, [createPath] gets a path without a trailing separator from
    [Create]: its file portion is not empty, and [Create] touches that
    last element in the directory before it and returns its Path. *)
Theorem Create_takes_last_element_as_file p pathname st :
  path p <> "" -> path (Join p pathname) <> "/" ->
  exists folder file,
    splitPath (bytes_of (path (Join p pathname))) = (folder, file) /\
    file <> [] /\
    Create p pathname st =
      (let dir := NewPath (string_of folder) in
       let st1 := if bool_decide (folder <> []) then (Mkdir dir st).2 else st in
       (NewPath (String (Join dir (string_of file))),
        (Touch dir (string_of file) st1).2)).
Proof.
  intros Hp Hroot.
  destruct (splitPath (bytes_of (path (Join p pathname)))) as [folder file] eqn:Hsplit.
  assert (Hfile : file <> []).
  { change file with (folder, file).2. rewrite <- Hsplit.
    rewrite Join_cleaned in * by assumption. rewrite bytes_of_string_of.
    apply splitPath_file, clean_ends_in_name. intros Hc.
    apply Hroot. rewrite Hc. reflexivity. }
  exists folder, file. split; [reflexivity|]. split; [exact Hfile|].
  unfold Create, createPath, String. rewrite Hsplit.
  rewrite (bool_decide_eq_false_2 (file = [])) by assumption.
  rewrite andb_false_r. cbn [orb].
  rewrite (bool_decide_eq_true_2 (file <> [])) by assumption.
  unfold mbind, M_bind, bind, ret.
  destruct (bool_decide (folder <> [])).
  - destruct (Mkdir (NewPath (string_of folder)) st) as [e st1]. cbn [snd].
    destruct (Touch (NewPath (string_of folder)) (string_of file) st1); reflexivity.
  - destruct (Touch (NewPath (string_of folder)) (string_of file) st); reflexivity.
Qed.

End Effects.

(** ** The pure claims *)

(** C9: building a Path from the string of a Path built from [s] gives
    the same string. *)
Theorem NewPath_String_idempotent s :
  String (NewPath (String (NewPath s))) = String (NewPath s).
Proof. apply Clean_idempotent. Qed.

Lemma Parents_loop_boundary n p :
  at_boundary (Parent p) = true -> Parents_loop n p [] = [].
Proof.
  intros H. destruct n as [|n]; [reflexivity|].
  cbn [Parents_loop]. unfold at_boundary in H. rewrite H. reflexivity.
Qed.

(** C2: when the first [Parent] step already reaches [.] or the root,
    [Parents] does not return that path: the slice of parents is empty and
    indexing it panics, for every depth. *)
Theorem Parents_panics_at_boundary p depth :
  path (Parent p) = "." \/ path (Parent p) = "/" ->
  Parents p depth = Panics index_panic.
Proof.
  intros H. unfold Parents. rewrite Parents_loop_boundary; [reflexivity|].
  unfold at_boundary. destruct H as [-> | ->]; reflexivity.
Qed.

(** [Parents(0)] is [Parent()] unless the parent is [.] or the root. *)
Lemma Parents_0 p :
  Parents p 0 = if at_boundary (Parent p) then Panics index_panic else Returns (Parent p).
Proof.
  unfold Parents, at_boundary. change (N.to_nat (uint_incr 0)) with 1.
  cbn [Parents_loop]. destruct (bool_decide _ || bool_decide _); reflexivity.
Qed.

(** C4: on [/usr], [Parent()] returns the root and [Parents(0)] panics. *)
Theorem Parents_0_is_not_Parent_at_boundary :
  Parent (NewPath "/usr") = {| path := "/" |} /\
  Parents (NewPath "/usr") 0 = Panics index_panic.
Proof. split; reflexivity. Qed.

(** ** Runs on the reference host *)

Module Runs.
Import MemFS Worlds.

(** [Create] with a trailing separator, run: [Join] cleans the path
    first, the separator is gone when [createPath] splits it, and [dir]
    is touched as a file in [/tmp]. *)
Example Create_trailing_separator_run :
  filepath.Join ["/tmp"; "dir/"] = "/tmp/dir" /\
  splitPath (bytes_of "/tmp/dir") = (bytes_of "/tmp", bytes_of "dir") /\
  Create (NewPath "/tmp") "dir/" fresh =
    ({| path := "/tmp/dir" |},
     start (Dir true [("tmp", Dir true [("dir", File [])])])) /\
  os_Stat (world (Create (NewPath "/tmp") "dir/" fresh).2) "/tmp/dir" =
    Ok {| fi_Name := "dir"; fi_IsDir := false |}.
Proof. repeat split; vm_compute; reflexivity. Qed.

Lemma Create_takes_last_element_as_file_witness :
  path (NewPath "/tmp") <> "" /\ path (Join (NewPath "/tmp") "dir/") <> "/" /\
  exists folder file,
    splitPath (bytes_of (path (Join (NewPath "/tmp") "dir/"))) = (folder, file) /\
    file <> [] /\
    Create (NewPath "/tmp") "dir/" fresh =
      (let dir := NewPath (string_of folder) in
       let st1 := if bool_decide (folder <> []) then (Mkdir dir fresh).2 else fresh in
       (NewPath (String (Join dir (string_of file))),
        (Touch dir (string_of file) st1).2)).
Proof.
  assert (H1 : path (NewPath "/tmp") <> "") by (vm_compute; discriminate).
  assert (H2 : path (Join (NewPath "/tmp") "dir/") <> "/") by (vm_compute; discriminate).
  split; [exact H1|]. split; [exact H2|].
  exact (Create_takes_last_element_as_file (NewPath "/tmp") "dir/" fresh H1 H2).
Defined.

(** [createPath] itself, given the separator, makes a directory. *)
Example createPath_trailing_separator :
  createPath "/tmp/dir/" fresh =
    ({| path := "/tmp/dir" |},
     start (Dir true [("tmp", Dir true [("dir", Dir true [])])])).
Proof. vm_compute. reflexivity. Qed.

Lemma Parents_panics_at_boundary_witness :
  (path (Parent (NewPath "a")) = "." \/ path (Parent (NewPath "a")) = "/") /\
  Parents (NewPath "a") 3 = Panics index_panic.
Proof.
  split; [left; reflexivity|].
  apply Parents_panics_at_boundary. left. reflexivity.
Defined.

(** C3: with a file in the way [os.MkdirAll] fails and [Mkdir] says so,
    [Touch] fails too; [Create] returns the Path it returns when both
    succeed, prints nothing, and nothing read off its result tells the
    two runs apart. *)
Lemma Create_does_not_surface_failure :
  (Mkdir (NewPath "/tmp/a/b") file_in_the_way).1 <> None /\
  (Touch (NewPath "/tmp/a/b") "c.txt" file_in_the_way).1 =
    Some (errorString "failed to check file status: stat /tmp/a/b/c.txt: not a directory") /\
  Create (NewPath "/tmp") "a/b/c.txt" file_in_the_way =
    ({| path := "/tmp/a/b/c.txt" |}, file_in_the_way) /\
  (Mkdir (NewPath "/tmp/a/b") fresh).1 = None /\
  (Touch (NewPath "/tmp/a/b") "c.txt" (Mkdir (NewPath "/tmp/a/b") fresh).2).1 = None /\
  (Create (NewPath "/tmp") "a/b/c.txt" fresh).1 = {| path := "/tmp/a/b/c.txt" |} /\
  (forall observe : Path -> bool,
      observe (Create (NewPath "/tmp") "a/b/c.txt" file_in_the_way).1 =
      observe (Create (NewPath "/tmp") "a/b/c.txt" fresh).1).
Proof.
  split; [vm_compute; discriminate|].
  repeat split; try (vm_compute; reflexivity).
Qed.

(** [os.MkdirAll] names the directory it could not make: here the file in
    the way, not the path asked for. *)
Example MkdirAll_names_the_failing_ancestor :
  os_MkdirAll "/tmp/a/b" perm_0755 (world file_in_the_way) =
    (Some (PathError "mkdir" "/tmp/a" ENOTDIR), world file_in_the_way) /\
  os_MkdirAll "/tmp/new/dir" perm_0755 (world (start_readonly (root (world fresh)))) =
    (Some (PathError "mkdir" "/tmp/new" EROFS), world (start_readonly (root (world fresh)))) /\
  root (os_MkdirAll "/tmp/new/dir/" perm_0755 (world fresh)).2 =
    Dir true [("tmp", Dir true [("new", Dir true [("dir", Dir true [])])])].
Proof. repeat split; vm_compute; reflexivity. Qed.

Lemma creation_steps_report_Create_does_not_witness :
  (exists e,
      os_MkdirAll (String (NewPath "/tmp/a/b")) perm_0755 (world file_in_the_way) =
        (Some e, world file_in_the_way) /\
      (Mkdir (NewPath "/tmp/a/b") file_in_the_way).1 =
        Some (Errorf "failed to create directory: " e)) /\
  (Create (NewPath "/tmp") "a/b/c.txt" file_in_the_way).1 =
    (Create (NewPath "/tmp") "a/b/c.txt" fresh).1.
Proof.
  destruct (@creation_steps_report_Create_does_not memfs host) as (H1 & _ & _ & H4).
  split.
  - assert (Hcall : os_MkdirAll (String (NewPath "/tmp/a/b")) perm_0755 (world file_in_the_way) =
                    (Some (PathError "mkdir" "/tmp/a" ENOTDIR), world file_in_the_way))
      by (vm_compute; reflexivity).
    eexists. split; [exact Hcall|].
    exact (H1 (NewPath "/tmp/a/b") file_in_the_way _ _ Hcall).
  - apply H4.
Defined.

Lemma Find_entry_for_every_pattern_witness :
  In "*.py" ["*.go"; "*.py"] /\
  (Find (NewPath "/tmp") ["*.go"; "*.py"] fresh).1 !! "*.py" =
    Some (FindOne (NewPath "/tmp") "*.py" fresh).1 /\
  (Find (NewPath "/tmp") ["*.go"; "*.py"] fresh).1 !! "*.py" = Some [].
Proof.
  assert (Hin : In "*.py" ["*.go"; "*.py"]) by (right; left; reflexivity).
  split; [exact Hin|].
  destruct (Find_entry_for_every_pattern (NewPath "/tmp") ["*.go"; "*.py"] "*.py"
              fresh Hin) as [H1 H2].
  split; [exact H1|]. apply H2. intros f Hf. vm_compute in Hf. destruct Hf.
Defined.

Example Find_two_go_files :
  (Find (NewPath "/tmp") ["*.go"; "*.py"] with_tree).1 !! "*.go" =
    Some [{| path := "/tmp/a/b/c.go" |}; {| path := "/tmp/a/d.go" |}] /\
  (Find (NewPath "/tmp") ["*.go"; "*.py"] with_tree).1 !! "*.py" = Some [].
Proof. split; vm_compute; reflexivity. Qed.

Lemma Read_bytes_or_nil_witness :
  (Read (NewPath "/tmp/data.txt") with_files).1 = Bytes ["h"%byte; "i"%byte] /\
  (Read (NewPath "/tmp/empty.txt") with_files).1 = Bytes [] /\
  (Read (NewPath "/tmp/missing") with_files).1 = nil /\
  (Read (NewPath "/tmp") with_files).1 = nil.
Proof.
  split; [|split; [|split]].
  - apply Read_bytes_or_nil. vm_compute. reflexivity.
  - apply Read_bytes_or_nil. vm_compute. reflexivity.
  - apply Read_bytes_or_nil. eexists. vm_compute. reflexivity.
  - apply Read_bytes_or_nil. eexists. vm_compute. reflexivity.
Defined.

Lemma Delete_result_witness :
  (Delete (NewPath "/tmp/a") with_tree).1 = true /\
  (Exists (NewPath "/tmp/a") (Delete (NewPath "/tmp/a") with_tree).2).1 = false /\
  (Delete (NewPath "/tmp/a") (Delete (NewPath "/tmp/a") with_tree).2).1 = true /\
  (Delete (NewPath "/tmp/missing") with_tree).1 = true.
Proof.
  destruct (Delete_result (NewPath "/tmp/a") with_tree) as (_ & H2 & _ & H4).
  destruct (Delete_result (NewPath "/tmp/missing") with_tree) as (H1 & _).
  split; [apply H2; vm_compute; reflexivity|].
  split; [vm_compute; reflexivity|].
  split; [apply H4; vm_compute; reflexivity|].
  apply H1. vm_compute. reflexivity.
Defined.

Example Delete_fails_on_readonly :
  Delete (NewPath "/tmp/a") (start_readonly (root (world with_tree))) =
    (false,
     {| world := world (start_readonly (root (world with_tree)));
        stdout := ["Error Deleting path: unlinkat /tmp/a: read-only file system"] |}).
Proof. vm_compute. reflexivity. Qed.

Lemma Delete_skips_removal_on_stat_error_witness :
  os_Stat (world locked) (path (NewPath "/secret/f")) =
    Err (PathError "stat" "/secret/f" EACCES) /\
  (Exists (NewPath "/secret/f") locked).1 = false /\
  Delete (NewPath "/secret/f") locked = (true, locked) /\
  root (world locked) = Dir true [("secret", Dir false [("f", File [])])].
Proof.
  assert (Hs : os_Stat (world locked) (path (NewPath "/secret/f")) =
               Err (PathError "stat" "/secret/f" EACCES)) by (vm_compute; reflexivity).
  split; [exact Hs|].
  destruct (Delete_skips_removal_on_stat_error _ _ _ Hs) as [H1 H2].
  split; [exact H1|]. split; [exact H2 | reflexivity].
Defined.

Lemma produced_normalized_witness :
  produced (Join (Parent (NewPath "/usr//lib/")) "../opt/./x/") /\
  filepath.Clean (path (Join (Parent (NewPath "/usr//lib/")) "../opt/./x/")) =
    path (Join (Parent (NewPath "/usr//lib/")) "../opt/./x/") /\
  path (Join (Parent (NewPath "/usr//lib/")) "../opt/./x/") = "/opt/x".
Proof.
  assert (Hp : @produced memfs host (Join (Parent (NewPath "/usr//lib/")) "../opt/./x/")).
  { apply produced_Join, produced_Parent, produced_NewPath. }
  split; [exact Hp|]. split; [apply (produced_normalized _ Hp) | reflexivity].
Defined.

End Runs.

(** ** Cleaning composed paths *)

Section CleanCompose.
Import filepath Lexical.

Lemma rooted_of_app x y : x <> [] -> rooted_of (x ++ y) = rooted_of x.
Proof. destruct x; [contradiction | reflexivity]. Qed.

Lemma stack_empty_init st : stack_of st = [] -> st = init.
Proof.
  destruct st as [k ns]. unfold stack_of. cbn [ups names].
  intros H. apply app_eq_nil in H as [-> H].
  destruct k; [reflexivity | discriminate].
Qed.

Lemma rooted_of_clean x : rooted_of (clean x) = rooted_of x.
Proof.
  rewrite clean_lexical. pose proof (wf_reading x) as Hwf.
  destruct (stack_of (reading x)) as [|e below] eqn:Hs.
  - unfold render. rewrite Hs. destruct (rooted_of x); reflexivity.
  - assert (Hne : stack_of (reading x) <> []) by (rewrite Hs; discriminate).
    rewrite render_nonempty by assumption. apply rooted_of_render; assumption.
Qed.

(** Reading a cleaned path gives the state the path itself reads to. *)
Lemma fold_elements_clean x :
  fold_left (step (rooted_of x)) (elements (clean x)) init = reading x.
Proof.
  pose proof (wf_reading x) as Hwf.
  destruct (stack_of (reading x)) as [|e below] eqn:Hs.
  - rewrite clean_lexical. unfold render. rewrite Hs.
    rewrite (stack_empty_init _ Hs). destruct (rooted_of x); reflexivity.
  - assert (Hne : stack_of (reading x) <> []) by (rewrite Hs; discriminate).
    pose proof (reading_render _ _ Hwf Hne) as H. unfold reading in H at 1.
    rewrite rooted_of_render in H by assumption.
    rewrite clean_lexical, render_nonempty by assumption. exact H.
Qed.

(** Cleaning [x/y] reads [y] from the state [x] reads to. *)
Lemma clean_app_sep x y :
  x <> [] ->
  clean (x ++ sep :: y) =
  finish (render (rooted_of x)
            (fold_left (step (rooted_of x)) (elements y) (reading x))).
Proof.
  intros Hx. rewrite clean_lexical. unfold reading.
  rewrite rooted_of_app, elements_app_sep, fold_left_app by assumption.
  reflexivity.
Qed.

(** A cleaned first part can stand for the part itself. *)
Lemma clean_clean_app x y :
  x <> [] -> clean (clean x ++ sep :: y) = clean (x ++ sep :: y).
Proof.
  intros Hx. rewrite !clean_app_sep by (assumption || apply clean_nonempty).
  rewrite rooted_of_clean. do 3 f_equal.
  unfold reading at 1. rewrite rooted_of_clean. apply fold_elements_clean.
Qed.

(** A trailing separator does not change the cleaned path. *)
Lemma clean_trailing_sep x : x <> [] -> clean (x ++ [sep]) = clean x.
Proof.
  intros Hx. rewrite clean_app_sep by assumption.
  cbn [elements fold_left]. rewrite step_empty. symmetry. apply clean_lexical.
Qed.

End CleanCompose.

(** ** The last separator of a path *)

Section LastSeparator.
Import filepath Lexical.

Lemma last_sep_split s :
  sepfree s \/ exists pre e, s = pre ++ sep :: e /\ sepfree e.
Proof.
  induction s as [|c s IH]; [left; constructor|].
  destruct IH as [Hs | (pre & e & -> & He)].
  - destruct (IsPathSeparator c) eqn:Hc.
    + right. exists [], s. apply sep_true in Hc. subst c. split; [reflexivity | exact Hs].
    + left. apply sepfree_cons. split; assumption.
  - right. exists (c :: pre), e. split; [reflexivity | exact He].
Qed.

Lemma scan_back_stop s lo : forall k,
  lo <= k ->
  (forall i, lo <= i < k -> IsPathSeparator (nth i s Separator) = false) ->
  (lo = 0 \/ IsPathSeparator (nth (lo - 1) s Separator) = true) ->
  scan_back s k = lo.
Proof.
  induction k as [|k IH]; intros Hlo Hfree Hstop.
  - simpl. lia.
  - cbn [scan_back]. destruct (Nat.eq_dec lo (S k)) as [->|Hne].
    + destruct Hstop as [H|H]; [discriminate|].
      replace (S k - 1) with k in H by lia. rewrite H. reflexivity.
    + rewrite (Hfree k) by lia. apply IH; [lia | | exact Hstop].
      intros i Hi. apply Hfree. lia.
Qed.

Lemma scan_back_sepfree s : sepfree s -> scan_back s (length s) = 0.
Proof.
  intros Hs. apply scan_back_stop; [lia | | left; reflexivity].
  intros i Hi. apply (nth_sepfree [] s i Hs). simpl. lia.
Qed.

Lemma scan_back_last pre e :
  sepfree e -> scan_back (pre ++ sep :: e) (length (pre ++ sep :: e)) = S (length pre).
Proof.
  intros He. apply scan_back_stop.
  - rewrite length_app. simpl. lia.
  - intros i Hi. rewrite length_app in Hi. simpl in Hi.
    replace (pre ++ sep :: e) with ((pre ++ [sep]) ++ e) by (rewrite <- app_assoc; reflexivity).
    apply nth_sepfree; [exact He|]. rewrite length_app. simpl. lia.
  - right. replace (S (length pre) - 1) with (length pre) by lia.
    rewrite app_nth2, Nat.sub_diag by lia. reflexivity.
Qed.

Lemma LastIndex_sepfree s : sepfree s -> strings.LastIndex s Separator = None.
Proof.
  induction s as [|c s IH]; intros Hs; [reflexivity|].
  apply sepfree_cons in Hs as [Hc Hs]. cbn [strings.LastIndex].
  rewrite IH by assumption. change (Ascii.eqb c Separator) with (IsPathSeparator c).
  rewrite Hc. reflexivity.
Qed.

Lemma LastIndex_last pre e :
  sepfree e -> strings.LastIndex (pre ++ sep :: e) Separator = Some (length pre).
Proof.
  intros He. induction pre as [|c pre IH].
  - cbn [app strings.LastIndex]. rewrite LastIndex_sepfree by assumption. reflexivity.
  - cbn [app strings.LastIndex]. rewrite IH. reflexivity.
Qed.

Lemma firstn_pre (pre rest : list ascii) : firstn (length pre) (pre ++ rest) = pre.
Proof. rewrite firstn_app, Nat.sub_diag, firstn_all. simpl. apply app_nil_r. Qed.

Lemma skipn_pre (pre rest : list ascii) : skipn (length pre) (pre ++ rest) = rest.
Proof. rewrite skipn_app, Nat.sub_diag, skipn_all. reflexivity. Qed.

Lemma sepfree_ends e : sepfree e -> e <> [] -> forall pre, ends_in_name (pre ++ e).
Proof.
  intros He Hne pre. destruct (sepfree_last e He Hne) as (body & c & -> & Hc).
  exists (pre ++ body), c. rewrite <- app_assoc. auto.
Qed.

Lemma TrimRight_ends s : ends_in_name s -> strings.TrimRight s Separator = s.
Proof. intros (body & c & -> & Hc). apply TrimRight_snoc. exact Hc. Qed.

Lemma HasSuffix_ends s : ends_in_name s -> strings.HasSuffix s Separator = false.
Proof. intros (body & c & -> & Hc). rewrite HasSuffix_snoc. exact Hc. Qed.

Lemma HasSuffix_false s :
  strings.HasSuffix s Separator = false -> s = [] \/ ends_in_name s.
Proof.
  intros H. destruct s as [|c s]; [left; reflexivity | right].
  destruct (exists_last (l := c :: s) ltac:(discriminate)) as (body & c0 & E).
  rewrite E in *. rewrite HasSuffix_snoc in H. exists body, c0. auto.
Qed.

(** [splitPath] at the last separator, and without one. *)
Lemma splitPath_last pre e :
  sepfree e -> e <> [] -> splitPath (pre ++ sep :: e) = (pre, e).
Proof.
  intros He Hne. unfold splitPath.
  pose proof (sepfree_ends e He Hne (pre ++ [sep])) as Hends.
  rewrite <- app_assoc in Hends. cbn [app] in Hends.
  rewrite TrimRight_ends, HasSuffix_ends, LastIndex_last by assumption.
  rewrite firstn_pre.
  replace (length pre + 1) with (length (pre ++ [sep])) by (rewrite length_app; reflexivity).
  replace (pre ++ sep :: e) with ((pre ++ [sep]) ++ e) by (rewrite <- app_assoc; reflexivity).
  rewrite skipn_pre. reflexivity.
Qed.

Lemma splitPath_sepfree e : sepfree e -> e <> [] -> splitPath e = ([], e).
Proof.
  intros He Hne. unfold splitPath.
  pose proof (sepfree_ends e He Hne []) as Hends. cbn [app] in Hends.
  rewrite TrimRight_ends, HasSuffix_ends, LastIndex_sepfree by assumption.
  reflexivity.
Qed.

Lemma dir_last pre e : sepfree e -> dir (pre ++ sep :: e) = clean (pre ++ [sep]).
Proof.
  intros He. unfold dir. rewrite scan_back_last by assumption.
  replace (S (length pre)) with (length (pre ++ [sep])) by (rewrite length_app; simpl; lia).
  replace (pre ++ sep :: e) with ((pre ++ [sep]) ++ e) by (rewrite <- app_assoc; reflexivity).
  rewrite firstn_pre. reflexivity.
Qed.

Lemma dir_sepfree e : sepfree e -> dir e = dot.
Proof. intros He. unfold dir. rewrite scan_back_sepfree by assumption. reflexivity. Qed.

Lemma base_last pre e : sepfree e -> e <> [] -> base (pre ++ sep :: e) = e.
Proof.
  intros He Hne. unfold base.
  pose proof (sepfree_ends e He Hne (pre ++ [sep])) as Hends.
  rewrite <- app_assoc in Hends. cbn [app] in Hends.
  destruct (pre ++ sep :: e) eqn:E; [destruct pre; discriminate|].
  rewrite <- E in Hends |- *.
  rewrite TrimRight_ends, scan_back_last by assumption.
  replace (S (length pre)) with (length (pre ++ [sep])) by (rewrite length_app; simpl; lia).
  replace (pre ++ sep :: e) with ((pre ++ [sep]) ++ e) by (rewrite <- app_assoc; reflexivity).
  rewrite skipn_pre. destruct e; [contradiction | reflexivity].
Qed.

Lemma base_sepfree e : sepfree e -> e <> [] -> base e = e.
Proof.
  intros He Hne. unfold base. destruct e as [|c e]; [contradiction|].
  pose proof (sepfree_ends _ He Hne []) as Hends. cbn [app] in Hends.
  rewrite TrimRight_ends, scan_back_sepfree by assumption. reflexivity.
Qed.

End LastSeparator.

(** ** Joining a name *)

Section JoinName.
Import filepath Lexical.

Lemma bytes_of_app a b : bytes_of (a +:+ b) = bytes_of a ++ bytes_of b.
Proof. induction a as [|c a IH]; [reflexivity|]. simpl. f_equal. exact IH. Qed.

Lemma string_of_app x y : string_of (x ++ y) = string_of x +:+ string_of y.
Proof. induction x as [|c x IH]; [reflexivity|]. simpl. rewrite IH. reflexivity. Qed.

Lemma bytes_of_nonempty s : s <> "" -> bytes_of s <> [].
Proof.
  intros Hs H. apply Hs. rewrite <- (string_of_bytes_of s), H. reflexivity.
Qed.

Lemma bytes_of_inj a b : bytes_of a = bytes_of b -> a = b.
Proof.
  intros H. rewrite <- (string_of_bytes_of a), <- (string_of_bytes_of b), H. reflexivity.
Qed.

(** The cleaned [x/e] for a cleaned [x] and a name [e]. *)
Lemma clean_join_name x e :
  clean x = x -> name e ->
  clean (x ++ sep :: e) =
  if decide (x = dot) then e
  else if decide (x = [sep]) then sep :: e
  else x ++ sep :: e.
Proof.
  intros Hx He. pose proof He as (Hfree & _).
  assert (Hne : x <> []) by (rewrite <- Hx; apply clean_nonempty).
  rewrite clean_app_sep, elements_sepfree by assumption.
  cbn [fold_left]. rewrite step_name by assumption.
  pose proof (wf_reading x) as Hwf.
  set (r := rooted_of x) in *. set (st := reading x) in *.
  assert (Hwf' : wf r {| ups := ups st; names := e :: names st |}).
  { destruct Hwf as [Hr Hn]. split; [exact Hr | constructor; assumption]. }
  rewrite render_nonempty by (assumption || discriminate).
  unfold render, stack_of. cbn [ups names app]. fold (stack_of st).
  rewrite clean_lexical in Hx. fold r st in Hx.
  destruct (stack_of st) as [|e' below] eqn:Hs.
  - unfold render in Hx. rewrite Hs in Hx. cbn [joined].
    destruct r; simpl in Hx; subst x; reflexivity.
  - assert (Hnes : stack_of st <> []) by (rewrite Hs; discriminate).
    rewrite render_nonempty in Hx by assumption.
    rewrite joined_cons by discriminate. rewrite app_assoc.
    unfold render in Hx. rewrite Hs in Hx. rewrite Hx.
    destruct (decide (x = dot)) as [->|_]; [subst st; discriminate|].
    destruct (decide (x = [sep])) as [->|_]; [subst st; discriminate|].
    reflexivity.
Qed.

End JoinName.

(** ** Path algebra *)

Section PathAlgebra.
Import Lexical.

Lemma string_of_nonempty l : l <> [] -> string_of l <> "".
Proof. destruct l; [contradiction | discriminate]. Qed.

Lemma Join_path_nonempty p other : path p <> "" -> path (Join p other) <> "".
Proof.
  intros Hp. unfold Join. cbn [path]. rewrite Join_nonempty by assumption.
  apply string_of_nonempty, clean_nonempty.
Qed.

Lemma normalized_bytes p : normalized p -> filepath.clean (bytes_of (path p)) = bytes_of (path p).
Proof.
  unfold normalized, filepath.Clean. intros H. rewrite <- H at 2.
  rewrite bytes_of_string_of. reflexivity.
Qed.

(** X1: joining [a] and then [b] is joining [a/b]. *)
Theorem Join_Join p a b :
  path p <> "" -> Join (Join p a) b = Join p (a +:+ "/" +:+ b).
Proof.
  intros Hp. pose proof (Join_path_nonempty p a Hp) as Hpa.
  unfold Join in *. cbn [path] in *. f_equal.
  rewrite (Join_nonempty _ b) by assumption.
  rewrite !Join_nonempty by assumption.
  rewrite bytes_of_string_of, !bytes_of_app. cbn [app].
  rewrite clean_clean_app by (destruct (bytes_of (path p)) eqn:E;
    [apply bytes_of_nonempty in Hp; contradiction | discriminate]).
  rewrite <- app_assoc. reflexivity.
Qed.

(** X2: joining the empty string onto a normalized Path gives the Path
    back. *)
Theorem Join_empty p : normalized p -> Join p "" = p.
Proof.
  intros Hn. pose proof (normalized_nonempty p Hn) as Hp.
  destruct p as [s]. unfold Join. cbn [path] in *. f_equal.
  rewrite Join_nonempty by assumption. cbn [bytes_of list_ascii_of_string app].
  rewrite clean_trailing_sep by (apply bytes_of_nonempty; assumption).
  apply (Hn : filepath.Clean s = s).
Qed.

Lemma Join_name_bytes p n :
  normalized p -> name (bytes_of n) ->
  bytes_of (path (Join p n)) =
  if decide (bytes_of (path p) = dot) then bytes_of n
  else if decide (bytes_of (path p) = [sep]) then sep :: bytes_of n
  else bytes_of (path p) ++ sep :: bytes_of n.
Proof.
  intros Hn Hname. pose proof (normalized_nonempty p Hn) as Hp.
  unfold Join. cbn [path]. rewrite Join_nonempty by assumption.
  rewrite bytes_of_string_of. cbn [app].
  apply clean_join_name; [apply normalized_bytes, Hn | exact Hname].
Qed.

(** X3: the string of a normalized Path joined with a name (an element
    without separator that is not empty, [.] or [..]): the name itself
    under [.], [/name] under the root, and [path/name] otherwise. *)
Theorem Join_name_string p n :
  normalized p -> name (bytes_of n) ->
  path (Join p n) =
  if decide (path p = ".") then n
  else if decide (path p = "/") then "/" +:+ n
  else path p +:+ "/" +:+ n.
Proof.
  intros Hn Hname. apply bytes_of_inj. rewrite Join_name_bytes by assumption.
  destruct (decide (path p = ".")) as [E|E].
  - rewrite E. reflexivity.
  - rewrite decide_False by (intros H; apply E, bytes_of_inj, H).
    destruct (decide (path p = "/")) as [E'|E'].
    + rewrite E'. reflexivity.
    + rewrite decide_False by (intros H; apply E', bytes_of_inj, H).
      rewrite !bytes_of_app. reflexivity.
Qed.

(** X4: [Parent] undoes [Join] with a name. *)
Theorem Parent_Join_name p n :
  normalized p -> name (bytes_of n) -> Parent (Join p n) = p.
Proof.
  intros Hn Hname. pose proof Hname as (Hfree & Hne & _).
  pose proof (normalized_bytes p Hn) as Hc.
  destruct p as [s]. unfold Parent. f_equal. unfold filepath.Dir.
  rewrite Join_name_bytes by assumption. cbn [path] in *.
  apply bytes_of_inj. rewrite bytes_of_string_of.
  destruct (decide (bytes_of s = dot)) as [E|_].
  - rewrite dir_sepfree, E by assumption. reflexivity.
  - destruct (decide (bytes_of s = [sep])) as [E|_].
    + pose proof (dir_last [] _ Hfree) as Hd. cbn [app] in Hd.
      rewrite Hd, E. reflexivity.
    + rewrite dir_last, clean_trailing_sep by
        (assumption || (rewrite <- Hc; apply clean_nonempty)).
      exact Hc.
Qed.

(** X5: the [Name] of a Path joined with a name is that name. *)
Theorem Name_Join_name p n :
  normalized p -> name (bytes_of n) -> Name (Join p n) = n.
Proof.
  intros Hn Hname. pose proof Hname as (Hfree & Hne & _).
  unfold Name, filepath.Base. rewrite Join_name_bytes by assumption.
  apply bytes_of_inj. rewrite bytes_of_string_of.
  destruct (decide _) as [_|_]; [apply base_sepfree; assumption|].
  destruct (decide _) as [_|_].
  - apply (base_last [] _ Hfree Hne).
  - apply base_last; assumption.
Qed.

Lemma IsAbs_rooted s : filepath.IsAbs s = rooted_of (bytes_of s).
Proof. reflexivity. Qed.

Lemma rooted_of_dir x : rooted_of (filepath.dir x) = rooted_of x.
Proof.
  destruct (last_sep_split x) as [Hx | (pre & e & -> & He)].
  - rewrite dir_sepfree by assumption.
    destruct x as [|c x]; [reflexivity|].
    apply sepfree_cons in Hx as [Hc _]. simpl. rewrite Hc. reflexivity.
  - rewrite dir_last, rooted_of_clean by assumption.
    destruct pre; reflexivity.
Qed.

(** X6: [Join] (on a Path that is not empty) and [Parent] keep a Path
    absolute or relative, as it was. *)
Theorem IsAbsolute_Join_Parent p :
  (forall other, path p <> "" -> IsAbsolute (Join p other) = IsAbsolute p) /\
  IsAbsolute (Parent p) = IsAbsolute p.
Proof.
  unfold IsAbsolute. rewrite !IsAbs_rooted. split.
  - intros other Hp. rewrite IsAbs_rooted. unfold Join. cbn [path].
    rewrite Join_nonempty, bytes_of_string_of, rooted_of_clean by assumption.
    apply rooted_of_app, bytes_of_nonempty, Hp.
  - unfold Parent, filepath.Dir. cbn [path]. rewrite bytes_of_string_of. apply rooted_of_dir.
Qed.

(** X7: the string of [NewPath s] is never empty, and it ends in a
    separator only when it is the root. *)
Theorem NewPath_no_trailing_separator s :
  path (NewPath s) <> "" /\
  (strings.HasSuffix (bytes_of (path (NewPath s))) filepath.Separator = true ->
   path (NewPath s) = "/").
Proof.
  split; [apply Clean_nonempty|].
  unfold NewPath, filepath.Clean. cbn [path]. rewrite bytes_of_string_of. intros H.
  destruct (decide (filepath.clean (bytes_of s) = [sep])) as [E|E]; [rewrite E; reflexivity|].
  apply clean_ends_in_name, HasSuffix_ends in E. congruence.
Qed.

End PathAlgebra.

(** ** [Parents] *)

Section ParentsFacts.

Lemma Parents_loop_ancestors n : forall current parents,
  Parents_loop n current parents = parents ++ ancestors n current.
Proof.
  induction n as [|n IH]; intros current parents; cbn [Parents_loop ancestors].
  - rewrite app_nil_r. reflexivity.
  - fold (at_boundary (Parent current)).
    destruct (at_boundary (Parent current)); [rewrite app_nil_r; reflexivity|].
    rewrite IH, <- app_assoc. reflexivity.
Qed.

Lemma ancestors_nil n current :
  ancestors n current = [] <-> n = 0 \/ at_boundary (Parent current) = true.
Proof.
  destruct n as [|n]; cbn [ancestors].
  - split; auto.
  - destruct (at_boundary (Parent current)); split; auto; try discriminate.
    intros [H|H]; discriminate.
Qed.

Lemma last_cons_default (x y d : Path) l : List.last (x :: l) d = List.last (x :: l) y.
Proof.
  revert x. induction l as [|z l IH]; intros x; [reflexivity|].
  change (List.last (z :: l) d = List.last (z :: l) y). apply IH.
Qed.

Lemma ancestors_last n : forall current x l,
  ancestors n current = x :: l ->
  let q := List.last (x :: l) x in
  exists k, 1 <= k <= n /\ q = Nat.iter k Parent current /\
            at_boundary q = false /\
            (k = n \/ at_boundary (Parent q) = true).
Proof.
  induction n as [|n IH]; intros current x l; cbn [ancestors]; [discriminate|].
  destruct (at_boundary (Parent current)) eqn:Hb; [discriminate|].
  intros [= <- <-]. cbv zeta.
  destruct (ancestors n (Parent current)) as [|y l'] eqn:Ha.
  - exists 1. cbn [List.last Nat.iter nat_rect]. split; [lia|].
    split; [reflexivity|]. split; [exact Hb|].
    apply ancestors_nil in Ha as [-> | H]; auto.
  - destruct (IH _ _ _ Ha) as (k & Hk & Hq & Hnb & Hstop). cbv zeta in *.
    change (List.last (Parent current :: y :: l') (Parent current))
      with (List.last (y :: l') (Parent current)).
    rewrite (last_cons_default y y (Parent current) l').
    exists (S k). split; [lia|]. rewrite Nat.iter_succ_r.
    split; [exact Hq|]. split; [exact Hnb|].
    destruct Hstop as [-> | H]; auto.
Qed.

(** X8: [Parents] panics exactly when the parent of the Path is [.] or
    the root, or [depth] is the largest [uint] (the increment wraps to
    zero and the loop does not run). *)
Theorem Parents_panics_iff p depth :
  Parents p depth = Panics index_panic <->
  uint_incr depth = 0%N \/ at_boundary (Parent p) = true.
Proof.
  unfold Parents. rewrite Parents_loop_ancestors. cbn [app].
  assert (Hz : N.to_nat (uint_incr depth) = 0 <-> uint_incr depth = 0%N) by lia.
  rewrite <- Hz, <- ancestors_nil.
  destruct (ancestors _ p); split; (reflexivity || discriminate).
Qed.

(** X9: what [Parents] returns is the Path itself after [k] steps of
    [Parent], for some [k] from 1 to [depth + 1]; it is not [.] or the
    root; and either [k] is [depth + 1] or the next parent is [.] or the
    root. *)
Theorem Parents_returns_ancestor p depth q :
  Parents p depth = Returns q ->
  exists k, 1 <= k <= N.to_nat (uint_incr depth) /\
            q = Nat.iter k Parent p /\
            at_boundary q = false /\
            (k = N.to_nat (uint_incr depth) \/ at_boundary (Parent q) = true).
Proof.
  unfold Parents. rewrite Parents_loop_ancestors. cbn [app].
  destruct (ancestors _ p) as [|x l] eqn:Ha; [discriminate|].
  cbn [last_parent]. intros [= <-]. exact (ancestors_last _ _ _ _ Ha).
Qed.

End ParentsFacts.

(** ** [splitPath], [createPath], [Touch] and [Create] *)

Section Creation.
Context {World : Type} `{!Host World}.
Import Lexical.

(** X10: the file portion [splitPath] returns has no separator; it is
    empty when the path ends in a separator; otherwise the path is the
    file portion alone (and the folder is empty), or the folder, a
    separator and the file portion. *)
Theorem splitPath_parts path :
  sepfree (splitPath path).2 /\
  (strings.HasSuffix path filepath.Separator = true -> (splitPath path).2 = []) /\
  (strings.HasSuffix path filepath.Separator = false ->
   splitPath path = ([], path) \/
   path = (splitPath path).1 ++ filepath.Separator :: (splitPath path).2).
Proof.
  destruct (strings.HasSuffix path filepath.Separator) eqn:Hs.
  - assert (E : (splitPath path).2 = []).
    { unfold splitPath. rewrite Hs.
      destruct (strings.LastIndex _ _); reflexivity. }
    rewrite E. split; [constructor|]. split; [reflexivity | discriminate].
  - assert (G : sepfree (splitPath path).2 /\
                (splitPath path = ([], path) \/
                 path = (splitPath path).1 ++ filepath.Separator :: (splitPath path).2)).
    { apply HasSuffix_false in Hs as [-> | Hends]; [split; [constructor | left; reflexivity]|].
      destruct (last_sep_split path) as [Hfree | (pre & e & -> & He)].
      - assert (Hne : path <> []).
        { destruct Hends as (b & c & -> & _). destruct b; discriminate. }
        rewrite splitPath_sepfree by assumption. split; [exact Hfree | left; reflexivity].
      - assert (Hne : e <> []).
        { intros ->. apply HasSuffix_ends in Hends.
          rewrite HasSuffix_snoc in Hends. discriminate. }
        rewrite splitPath_last by assumption. split; [exact He | right; reflexivity]. }
    destruct G as [G1 G2]. split; [exact G1|]. split; [discriminate | intros _; exact G2].
Qed.

(** X11: [createPath] on a pathname that ends in a separator makes the
    directory of the whole pathname with [Mkdir], touches no file, and
    returns the Path of the pathname. *)
Theorem createPath_trailing_separator_mkdir pathname st :
  strings.HasSuffix (bytes_of pathname) filepath.Separator = true ->
  createPath pathname st = (NewPath pathname, (Mkdir (NewPath pathname) st).2).
Proof.
  intros Hs. unfold createPath, splitPath. rewrite Hs.
  assert (Hne : bytes_of pathname <> []) by (destruct (bytes_of pathname); discriminate).
  destruct (match strings.LastIndex _ _ with Some _ => _ | None => _ end) as [folder file].
  rewrite (bool_decide_eq_true_2 ([] = [])) by reflexivity. cbn [orb].
  rewrite (bool_decide_eq_true_2 (bytes_of pathname <> [])) by assumption.
  rewrite (bool_decide_eq_false_2 ([] <> [])) by (intros H; apply H; reflexivity).
  rewrite string_of_bytes_of.
  unfold mbind, M_bind, bind, ret.
  destruct (Mkdir (NewPath pathname) st); reflexivity.
Qed.

(** X12: unless [os.Stat] reports that the file does not exist, [Touch]
    leaves the world and the output as they are; it then returns nil
    exactly when [os.Stat] succeeded. *)
Theorem Touch_only_creates_missing p pathname st :
  IsNotExist (match os_Stat (world st) (filepath.Join [String p; pathname]) with
              | Ok _ => None
              | Err e => Some e
              end) = false ->
  (Touch p pathname st).2 = st /\
  ((Touch p pathname st).1 = None <->
   exists info, os_Stat (world st) (filepath.Join [String p; pathname]) = Ok info).
Proof.
  intros Hn. unfold Touch, mbind, M_bind, bind, query.
  destruct (os_Stat (world st) (filepath.Join [String p; pathname])) as [info|e];
    rewrite Hn; cbn [fst snd ret].
  - split; [reflexivity|]. split; [eauto | reflexivity].
  - split; [reflexivity|]. split; [discriminate | intros [info H]; discriminate].
Qed.

End Creation.

(** ** What [Create] returns *)

Section CreateResult.
Context {World : Type} `{!Host World}.
Import Lexical.

Lemma createPath_file pathname st folder file :
  splitPath (bytes_of pathname) = (folder, file) -> file <> [] ->
  createPath pathname st =
  (let dir := NewPath (string_of folder) in
   let st1 := if bool_decide (folder <> []) then (Mkdir dir st).2 else st in
   (NewPath (String (Join dir (string_of file))),
    (Touch dir (string_of file) st1).2)).
Proof.
  intros Hsplit Hfile. unfold createPath. rewrite Hsplit.
  rewrite (bool_decide_eq_false_2 (file = [])) by assumption.
  rewrite andb_false_r. cbn [orb].
  rewrite (bool_decide_eq_true_2 (file <> [])) by assumption.
  unfold mbind, M_bind, bind, ret.
  destruct (bool_decide (folder <> [])).
  - destruct (Mkdir (NewPath (string_of folder)) st) as [e st1]. cbn [snd].
    destruct (Touch (NewPath (string_of folder)) (string_of file) st1); reflexivity.
  - destruct (Touch (NewPath (string_of folder)) (string_of file) st); reflexivity.
Qed.

Lemma createPath_dir pathname st folder :
  splitPath (bytes_of pathname) = (folder, []) -> bytes_of pathname <> [] ->
  createPath pathname st = (NewPath pathname, (Mkdir (NewPath pathname) st).2).
Proof.
  intros Hsplit Hne. unfold createPath. rewrite Hsplit.
  rewrite (bool_decide_eq_true_2 ([] = [])) by reflexivity. cbn [orb].
  rewrite (bool_decide_eq_true_2 (bytes_of pathname <> [])) by assumption.
  rewrite (bool_decide_eq_false_2 ([] <> [])) by (intros H; apply H; reflexivity).
  rewrite string_of_bytes_of.
  unfold mbind, M_bind, bind, ret.
  destruct (Mkdir (NewPath pathname) st); reflexivity.
Qed.

Lemma clean_under_dot c :
  rooted_of c = false -> filepath.clean (dot ++ sep :: c) = filepath.clean c.
Proof.
  intros Hr. rewrite clean_app_sep by discriminate.
  rewrite (clean_lexical c). unfold reading. rewrite Hr. reflexivity.
Qed.

Lemma sepfree_not_rooted c : sepfree c -> rooted_of c = false.
Proof.
  destruct c as [|x c]; [reflexivity|]. intros H.
  apply sepfree_cons in H as [Hx _]. exact Hx.
Qed.

(** The Path [createPath] returns for a file portion [file] in [folder]. *)
Lemma touched_path folder file :
  path (NewPath (String (Join (NewPath (string_of folder)) (string_of file)))) =
  string_of (filepath.clean
    (filepath.clean folder ++ sep :: file)).
Proof.
  unfold NewPath at 1, String, Join. cbn [path].
  rewrite Join_nonempty by apply Clean_nonempty.
  rewrite Clean_string_of_clean. unfold NewPath, filepath.Clean. cbn [path].
  rewrite !bytes_of_string_of. reflexivity.
Qed.

(** X13: unless the joined path lies directly under the root, the Path
    [Create] returns is the Path [Join] gives for the pathname. *)
Theorem Create_returns_joined p pathname st :
  path p <> "" ->
  (forall e, sepfree e -> e <> [] ->
             bytes_of (path (Join p pathname)) <> sep :: e) ->
  (Create p pathname st).1 = Join p pathname.
Proof.
  intros Hp Hroot. unfold Create, String.
  destruct (Join p pathname) as [j] eqn:Hj. cbn [path] in *.
  assert (Hc : filepath.clean (bytes_of j) = bytes_of j).
  { apply (f_equal path) in Hj. unfold Join in Hj. cbn [path] in Hj.
    rewrite Join_nonempty in Hj by assumption. rewrite <- Hj.
    rewrite bytes_of_string_of. apply clean_idempotent. }
  assert (G : path (createPath j st).1 = j);
    [|destruct (createPath j st).1; cbn [path] in G; subst; reflexivity].
  apply bytes_of_inj.
  destruct (decide (bytes_of j = [sep])) as [E|E].
  - apply (f_equal string_of) in E. rewrite string_of_bytes_of in E. subst j.
    rewrite (createPath_dir _ st []) by (reflexivity || discriminate).
    reflexivity.
  - assert (Hends : ends_in_name (bytes_of j)).
    { rewrite <- Hc. apply clean_ends_in_name. rewrite Hc. exact E. }
    destruct (last_sep_split (bytes_of j)) as [Hfree | (pre & e & Hsplit & He)].
    + assert (Hne : bytes_of j <> []).
      { destruct Hends as (b & c & -> & _). destruct b; discriminate. }
      rewrite (createPath_file j st [] (bytes_of j))
        by (assumption || apply splitPath_sepfree; assumption).
      cbn [fst]. rewrite touched_path, bytes_of_string_of.
      change (filepath.clean []) with dot.
      rewrite clean_under_dot by (apply sepfree_not_rooted; assumption).
      exact Hc.
    + assert (Hne : e <> []).
      { intros ->. rewrite Hsplit in Hends. apply HasSuffix_ends in Hends.
        rewrite HasSuffix_snoc in Hends. discriminate. }
      assert (Hpre : pre <> []).
      { intros ->. apply (Hroot e He Hne). exact Hsplit. }
      rewrite (createPath_file j st pre e)
        by (assumption || rewrite Hsplit; apply splitPath_last; assumption).
      cbn [fst]. rewrite touched_path, bytes_of_string_of.
      rewrite clean_clean_app, <- Hsplit by assumption.
      exact Hc.
Qed.

(** X14: on the root Path, [Create] with a name does not make [/name]:
    the folder portion is empty, no directory is made, the name is touched
    under the Path [.] (the working directory), and the relative Path of
    the name is returned. *)
Theorem Create_under_root p n st :
  path p = "/" -> name (bytes_of n) ->
  Create p n st = ({| path := n |}, (Touch {| path := "." |} n st).2).
Proof.
  intros Hp Hname. pose proof Hname as (Hfree & Hne & _).
  assert (Hn : normalized p) by (unfold normalized; rewrite Hp; reflexivity).
  pose proof (Join_name_bytes p n Hn Hname) as Hj. rewrite Hp in Hj.
  rewrite decide_False in Hj by (intros H; vm_compute in H; discriminate).
  rewrite decide_True in Hj by reflexivity.
  unfold Create, String.
  rewrite (createPath_file _ st [] (bytes_of n))
    by (assumption || rewrite Hj; apply (splitPath_last [] _ Hfree Hne)).
  cbv zeta. rewrite (bool_decide_eq_false_2 ([] <> [])) by (intros H; apply H; reflexivity).
  change (NewPath (string_of [])) with {| path := "." |}.
  rewrite string_of_bytes_of. f_equal.
  assert (Hdot : normalized {| path := "." |}) by reflexivity.
  pose proof (Join_name_bytes {| path := "." |} n Hdot Hname) as Hd.
  rewrite decide_True in Hd by reflexivity.
  unfold NewPath, String. f_equal. rewrite <- (string_of_bytes_of (path _)), Hd.
  apply bytes_of_inj. unfold filepath.Clean. rewrite !bytes_of_string_of.
  pose proof (clean_join_name dot (bytes_of n) eq_refl Hname) as Hcj.
  rewrite decide_True in Hcj by reflexivity.
  rewrite <- Hcj at 1. rewrite clean_idempotent. exact Hcj.
Qed.

End CreateResult.

(** ** More on [Find], [FindOne] and [Delete] *)

Section FindFacts.
Context {World : Type} `{!Host World}.

(** X15: the keys of the map [Find] returns are exactly the patterns it
    was given. *)
Theorem Find_keys p patterns st :
  dom (Find p patterns st).1 = list_to_set patterns.
Proof.
  apply set_eq. intros pattern.
  rewrite elem_of_dom, Find_lookup, elem_of_list_to_set.
  destruct (decide (pattern ∈ patterns)) as [Hin|Hnin].
  - rewrite bool_decide_eq_true_2 by assumption. split; [auto | eauto].
  - rewrite bool_decide_eq_false_2 by assumption.
    split; [intros [x Hx]; discriminate | contradiction].
Qed.

Lemma FindOne_fn_complete pattern path info matches :
  fi_IsDir info = false -> match_ok pattern [path] ->
  FindOne_fn pattern path (Visit info) matches =
  (None, matches ++ matched pattern [path]).
Proof.
  intros Hd Hok. specialize (Hok path ltac:(left; reflexivity)).
  unfold FindOne_fn, matched. rewrite Hd. cbn [List.filter].
  destruct (filepath_Match pattern (filepath.Base path)) as [b e].
  cbn [fst snd] in *. subst e. destruct b; [reflexivity|].
  cbn [map]. rewrite app_nil_r. reflexivity.
Qed.

Lemma matched_app pattern fs fs' :
  matched pattern (fs ++ fs') = matched pattern fs ++ matched pattern fs'.
Proof. unfold matched. rewrite List.filter_app, map_app. reflexivity. Qed.

Lemma match_ok_app pattern fs fs' :
  match_ok pattern (fs ++ fs') -> match_ok pattern fs /\ match_ok pattern fs'.
Proof.
  intros H. split; intros f Hf; apply H, in_or_app; [left | right]; exact Hf.
Qed.

(** On a readable tree, with a pattern that matches without error, the
    walk ends without error and has added every matching file, in walk
    order. *)
Lemma walk_complete pattern :
  forall dir path info matches,
    readable_dir info dir = true -> match_ok pattern (files_dir path info dir) ->
    walk (FindOne_fn pattern) path info dir matches =
    (None, matches ++ matched pattern (files_dir path info dir)).
Proof.
  apply (wdir_ind'
    (fun t => match t with
              | LstatErr _ => True
              | LstatOk info dir => forall path matches,
                  readable_dir info dir = true ->
                  match_ok pattern (files_dir path info dir) ->
                  walk (FindOne_fn pattern) path info dir matches =
                  (None, matches ++ matched pattern (files_dir path info dir))
              end)
    (fun dir => forall path info matches,
         readable_dir info dir = true ->
         match_ok pattern (files_dir path info dir) ->
         walk (FindOne_fn pattern) path info dir matches =
         (None, matches ++ matched pattern (files_dir path info dir)))
    (fun entries => forall path matches,
         readable_entries entries = true ->
         match_ok pattern (files_entries path entries) ->
         walk_names (FindOne_fn pattern) path entries matches =
         (None, matches ++ matched pattern (files_entries path entries)))).
  - exact (fun _ => I).
  - intros info dir IH path matches. apply IH.
  - intros err path info matches Hr Hok. cbn [readable_dir] in Hr.
    rewrite orb_false_r in Hr. apply negb_true_iff in Hr.
    rewrite files_dir_file in * by assumption.
    rewrite walk_file by assumption. apply FindOne_fn_complete; assumption.
  - intros entries IH path info matches Hr Hok.
    destruct (fi_IsDir info) eqn:Hd.
    + cbn [readable_dir] in Hr. rewrite Hd in Hr. cbn [negb orb] in Hr.
      rewrite files_dir_ReadDirOk in * by assumption.
      rewrite walk_ReadDirOk by assumption.
      unfold FindOne_fn at 1. rewrite Hd. apply IH; assumption.
    + rewrite files_dir_file in * by assumption.
      rewrite walk_file by assumption. apply FindOne_fn_complete; assumption.
  - intros path matches _ _. unfold matched. cbn. rewrite app_nil_r. reflexivity.
  - intros name t IHt rest IHrest path matches Hr Hok.
    destruct t as [err|fileInfo dir]; cbn [readable_entries] in Hr; [discriminate|].
    apply andb_true_iff in Hr as [Hr1 Hr2].
    rewrite files_entries_LstatOk in *. apply match_ok_app in Hok as [Hok1 Hok2].
    rewrite walk_names_LstatOk, IHt by assumption.
    rewrite IHrest, matched_app, app_assoc by assumption. reflexivity.
Qed.

(** X16: when every [os.Lstat] of the walk succeeds, every directory can
    be read and the pattern matches every file's base name without
    error, [FindOne] returns the Paths of all files under the root whose
    base name matches, in walk order, and prints nothing. *)
Theorem FindOne_complete p pattern st :
  readable (os_walkTree (world st) (path p)) = true ->
  match_ok pattern (files (os_walkTree (world st) (path p)) (path p)) ->
  FindOne p pattern st =
  (matched pattern (files (os_walkTree (world st) (path p)) (path p)), st).
Proof.
  intros Hr Hok. unfold FindOne, mbind, M_bind, bind, query, Walk.
  destruct (os_walkTree (world st) (path p)) as [err|info dir]; [discriminate|].
  cbn [readable files] in *. rewrite walk_complete by assumption. reflexivity.
Qed.

(** X17: when [os.Lstat] of the root fails (a missing root, say),
    [FindOne] returns no Path and prints the error; the world is as
    before. *)
Theorem FindOne_root_error p pattern st e :
  os_walkTree (world st) (path p) = LstatErr e ->
  isSkipDir e || isSkipAll e = false ->
  FindOne p pattern st =
  ([], {| world := world st;
          stdout := stdout st ++ ["Error during walk: " +:+ Error e] |}).
Proof.
  intros Ht Hs. unfold FindOne, mbind, M_bind, bind, query, Walk.
  rewrite Ht. cbn [FindOne_fn]. rewrite Hs. reflexivity.
Qed.

(** X18: [Delete] prints the error of [os.RemoveAll] when it returns
    false, and nothing when it returns true. *)
Theorem Delete_output p st :
  ((Delete p st).1 = true -> stdout (Delete p st).2 = stdout st) /\
  ((Delete p st).1 = false ->
   exists e, (os_RemoveAll (String p) (world st)).1 = Some e /\
             stdout (Delete p st).2 =
             stdout st ++ ["Error Deleting path: " +:+ Error e]).
Proof.
  destruct ((Exists p st).1) eqn:He.
  - rewrite Delete_present by assumption.
    destruct (os_RemoveAll (String p) (world st)) as [[e|] w]; cbn [fst snd stdout].
    + split; [discriminate | intros _; eauto].
    + split; [reflexivity | discriminate].
  - rewrite Delete_missing by assumption. split; [reflexivity | discriminate].
Qed.

End FindFacts.

(** ** [Name] and [IsAbsolute] *)

Section NameFacts.
Import Lexical.

Lemma base_element x :
  filepath.base x = [sep] \/ (filepath.base x <> [] /\ sepfree (filepath.base x)).
Proof.
  unfold filepath.base. destruct x as [|c x]; [right; split; [discriminate | apply sepfree_dot]|].
  set (t := strings.TrimRight (c :: x) filepath.Separator).
  destruct (last_sep_split t) as [Ht | (pre & e & E & He)].
  - rewrite scan_back_sepfree by assumption. cbn [skipn].
    destruct t; [left; reflexivity | right; split; [discriminate | exact Ht]].
  - rewrite E, scan_back_last by assumption.
    replace (S (length pre)) with (length (pre ++ [sep])) by (rewrite length_app; simpl; lia).
    replace (pre ++ sep :: e) with ((pre ++ [sep]) ++ e) by (rewrite <- app_assoc; reflexivity).
    rewrite skipn_pre.
    destruct e; [left; reflexivity | right; split; [discriminate | exact He]].
Qed.

(** X19: the [Name] of a Path is never empty, and it holds a separator
    only when it is the root. *)
Theorem Name_is_element p :
  Name p = "/" \/ (Name p <> "" /\ sepfree (bytes_of (Name p))).
Proof.
  unfold Name, filepath.Base. rewrite bytes_of_string_of.
  destruct (base_element (bytes_of (path p))) as [E | [Hne Hfree]].
  - left. rewrite E. reflexivity.
  - right. split; [apply string_of_nonempty, Hne | exact Hfree].
Qed.

(** X20: [NewPath s] is absolute exactly when [s] starts with a
    separator. *)
Theorem IsAbsolute_NewPath s : IsAbsolute (NewPath s) = filepath.IsAbs s.
Proof.
  unfold IsAbsolute, NewPath, filepath.Clean. cbn [path].
  rewrite !IsAbs_rooted, bytes_of_string_of. apply rooted_of_clean.
Qed.

End NameFacts.

(** ** More runs on the reference host *)

Module MoreRuns.
Import MemFS Worlds Lexical.

Ltac is_name :=
  repeat split; [repeat constructor | discriminate..].

Lemma Join_Join_witness :
  path (NewPath "/usr") <> "" /\
  Join (Join (NewPath "/usr") "lib/../share") "./doc" =
    Join (NewPath "/usr") ("lib/../share" +:+ "/" +:+ "./doc") /\
  Join (Join (NewPath "/usr") "lib/../share") "./doc" = {| path := "/usr/share/doc" |}.
Proof.
  assert (H : path (NewPath "/usr") <> "") by (vm_compute; discriminate).
  split; [exact H|]. split; [apply Join_Join, H | reflexivity].
Defined.

Lemma Join_empty_witness :
  normalized (NewPath "a//b/") /\ Join (NewPath "a//b/") "" = {| path := "a/b" |}.
Proof.
  assert (H : normalized (NewPath "a//b/")) by reflexivity.
  split; [exact H|]. rewrite (Join_empty _ H). reflexivity.
Defined.

Lemma Join_name_string_witness :
  name (bytes_of "c.txt") /\
  path (Join (NewPath "a/b") "c.txt") = "a/b/c.txt" /\
  path (Join (NewPath ".") "c.txt") = "c.txt" /\
  path (Join (NewPath "/") "c.txt") = "/c.txt".
Proof.
  assert (H : name (bytes_of "c.txt")) by is_name.
  split; [exact H|].
  split; [|split]; rewrite Join_name_string by (reflexivity || exact H); reflexivity.
Defined.

Lemma Parent_Join_name_witness :
  normalized (NewPath "/usr/lib") /\ name (bytes_of "go") /\
  Parent (Join (NewPath "/usr/lib") "go") = NewPath "/usr/lib".
Proof.
  assert (Hn : normalized (NewPath "/usr/lib")) by reflexivity.
  assert (H : name (bytes_of "go")) by is_name.
  split; [exact Hn|]. split; [exact H|]. apply Parent_Join_name; assumption.
Defined.

Lemma Name_Join_name_witness :
  normalized (NewPath "/usr/lib") /\ name (bytes_of "base.json") /\
  Name (Join (NewPath "/usr/lib") "base.json") = "base.json".
Proof.
  assert (Hn : normalized (NewPath "/usr/lib")) by reflexivity.
  assert (H : name (bytes_of "base.json")) by is_name.
  split; [exact Hn|]. split; [exact H|]. apply Name_Join_name; assumption.
Defined.

Lemma IsAbsolute_Join_Parent_witness :
  IsAbsolute (Join (NewPath "/usr") "../../x") = true /\
  IsAbsolute (Parent (NewPath "a/b")) = false.
Proof.
  destruct (IsAbsolute_Join_Parent (NewPath "/usr")) as [H1 _].
  destruct (IsAbsolute_Join_Parent (NewPath "a/b")) as [_ H2].
  split; [rewrite H1; [reflexivity | vm_compute; discriminate] | rewrite H2; reflexivity].
Defined.

Lemma Parents_returns_ancestor_witness :
  Parents (NewPath "/a/b/c/d") 1 = Returns {| path := "/a/b" |} /\
  exists k, 1 <= k <= N.to_nat (uint_incr 1) /\
            {| path := "/a/b" |} = Nat.iter k Parent (NewPath "/a/b/c/d") /\
            at_boundary {| path := "/a/b" |} = false /\
            (k = N.to_nat (uint_incr 1) \/
             at_boundary (Parent {| path := "/a/b" |}) = true).
Proof.
  assert (H : Parents (NewPath "/a/b/c/d") 1 = Returns {| path := "/a/b" |}) by reflexivity.
  split; [exact H | exact (Parents_returns_ancestor _ _ _ H)].
Defined.

Lemma createPath_trailing_separator_mkdir_witness :
  strings.HasSuffix (bytes_of "/tmp/dir/") filepath.Separator = true /\
  createPath "/tmp/dir/" fresh =
    (NewPath "/tmp/dir/", (Mkdir (NewPath "/tmp/dir/") fresh).2) /\
  root (world (createPath "/tmp/dir/" fresh).2) =
    Dir true [("tmp", Dir true [("dir", Dir true [])])].
Proof.
  assert (H : strings.HasSuffix (bytes_of "/tmp/dir/") filepath.Separator = true)
    by reflexivity.
  split; [exact H|]. split; [apply createPath_trailing_separator_mkdir, H|].
  rewrite (createPath_trailing_separator_mkdir _ fresh H). vm_compute. reflexivity.
Defined.

Lemma Touch_only_creates_missing_witness :
  IsNotExist (match os_Stat (world with_files)
                      (filepath.Join [String (NewPath "/tmp"); "data.txt"]) with
              | Ok _ => None | Err e => Some e end) = false /\
  (Touch (NewPath "/tmp") "data.txt" with_files).2 = with_files /\
  (Touch (NewPath "/tmp") "data.txt" with_files).1 = None.
Proof.
  assert (H : IsNotExist (match os_Stat (world with_files)
                      (filepath.Join [String (NewPath "/tmp"); "data.txt"]) with
              | Ok _ => None | Err e => Some e end) = false) by (vm_compute; reflexivity).
  split; [exact H|].
  destruct (@Touch_only_creates_missing memfs host (NewPath "/tmp") "data.txt"
              with_files H) as [H1 H2].
  split; [exact H1|]. apply H2. eexists. vm_compute. reflexivity.
Defined.

Lemma Create_returns_joined_witness :
  path (NewPath "/tmp") <> "" /\
  (Create (NewPath "/tmp") "a/./b//c.txt" fresh).1 = Join (NewPath "/tmp") "a/./b//c.txt" /\
  Join (NewPath "/tmp") "a/./b//c.txt" = {| path := "/tmp/a/b/c.txt" |}.
Proof.
  assert (H : path (NewPath "/tmp") <> "") by (vm_compute; discriminate).
  split; [exact H|]. split; [|reflexivity].
  apply Create_returns_joined; [exact H|].
  intros e He _ Heq. vm_compute in Heq. injection Heq as <-.
  unfold sepfree in He. rewrite Forall_forall in He.
  specialize (He "/"%char). vm_compute in He. discriminate He.
  do 3 right. left.
Defined.

Lemma Create_under_root_witness :
  path (NewPath "/") = "/" /\ name (bytes_of "x") /\
  Create (NewPath "/") "x" fresh =
    ({| path := "x" |}, (Touch {| path := "." |} "x" fresh).2) /\
  root (world (Create (NewPath "/") "x" fresh).2) =
    Dir true [("tmp", Dir true [("x", File [])])].
Proof.
  assert (H : name (bytes_of "x")) by is_name.
  split; [reflexivity|]. split; [exact H|].
  split; [apply Create_under_root; [reflexivity | exact H]|].
  rewrite (Create_under_root (NewPath "/") "x" fresh eq_refl H). vm_compute. reflexivity.
Defined.

Lemma FindOne_complete_witness :
  readable (os_walkTree (world with_tree) (path (NewPath "/tmp"))) = true /\
  match_ok "*.go" (files (os_walkTree (world with_tree) (path (NewPath "/tmp")))
                         (path (NewPath "/tmp"))) /\
  FindOne (NewPath "/tmp") "*.go" with_tree =
    ([{| path := "/tmp/a/b/c.go" |}; {| path := "/tmp/a/d.go" |}], with_tree).
Proof.
  assert (Hr : readable (os_walkTree (world with_tree) (path (NewPath "/tmp"))) = true)
    by (vm_compute; reflexivity).
  assert (Hok : match_ok "*.go" (files (os_walkTree (world with_tree) (path (NewPath "/tmp")))
                                       (path (NewPath "/tmp"))))
    by (intros f _; reflexivity).
  split; [exact Hr|]. split; [exact Hok|].
  rewrite (FindOne_complete _ _ _ Hr Hok). vm_compute. reflexivity.
Defined.

Lemma FindOne_root_error_witness :
  os_walkTree (world fresh) (path (NewPath "/nowhere")) =
    LstatErr (PathError "lstat" "/nowhere" ENOENT) /\
  FindOne (NewPath "/nowhere") "*.go" fresh =
    ([], {| world := world fresh;
            stdout := ["Error during walk: lstat /nowhere: no such file or directory"] |}).
Proof.
  assert (H : os_walkTree (world fresh) (path (NewPath "/nowhere")) =
              LstatErr (PathError "lstat" "/nowhere" ENOENT)) by (vm_compute; reflexivity).
  split; [exact H|].
  rewrite (FindOne_root_error _ "*.go" _ _ H eq_refl). reflexivity.
Defined.

End MoreRuns.

(** ** The reference host's [MkdirAll] has fuel enough *)

Section MkdirAllFuel.
Import MemFS.

Lemma scan_back_le path k : filepath.scan_back path k <= k.
Proof.
  induction k as [|k IH]; [reflexivity|]. cbn [filepath.scan_back].
  destruct (filepath.IsPathSeparator _); lia.
Qed.

Lemma TrimRight_length s c : length (strings.TrimRight s c) <= length s.
Proof.
  induction s as [|x s IH]; [reflexivity|]. cbn [strings.TrimRight].
  destruct (strings.TrimRight s c); [destruct (Ascii.eqb x c)|]; simpl in *; lia.
Qed.

Lemma length_bytes_of s : length (bytes_of s) = String.length s.
Proof. induction s as [|c s IH]; [reflexivity|]. simpl. f_equal. exact IH. Qed.

Lemma length_string_of l : String.length (string_of l) = length l.
Proof. induction l as [|c l IH]; [reflexivity|]. simpl. f_equal. exact IH. Qed.

(** The parent [MkdirAll] recurses on is shorter than the path. *)
Lemma parent_shorter path :
  let j := filepath.scan_back (bytes_of path)
             (length (strings.TrimRight (bytes_of path) filepath.Separator)) in
  (1 <? j) = true ->
  String.length (string_of (firstn (j - 1) (bytes_of path))) < String.length path.
Proof.
  intros j Hj. apply Nat.ltb_lt in Hj.
  pose proof (scan_back_le (bytes_of path)
                (length (strings.TrimRight (bytes_of path) filepath.Separator))) as H1.
  pose proof (TrimRight_length (bytes_of path) filepath.Separator) as H2.
  fold j in H1. rewrite length_string_of, length_firstn, <- length_bytes_of. lia.
Qed.

(** Any fuel that covers the length of the path gives the same result. *)
Lemma MkdirAll_fuel fuel : forall fuel' path w,
  String.length path <= fuel -> String.length path <= fuel' ->
  MkdirAll fuel path w = MkdirAll fuel' path w.
Proof.
  induction fuel as [|fuel IH]; intros fuel' path w H H'.
  - assert (path = "") as -> by (destruct path; [reflexivity | simpl in H; lia]).
    destruct fuel'; reflexivity.
  - destruct fuel' as [|fuel'].
    + assert (path = "") as -> by (destruct path; [reflexivity | simpl in H'; lia]).
      reflexivity.
    + cbn [MkdirAll]. destruct (stat w path); [reflexivity|].
      destruct (1 <? _) eqn:Hj; [|reflexivity].
      pose proof (parent_shorter path Hj) as Hlt. cbv zeta in Hlt.
      rewrite (IH fuel') by lia. reflexivity.
Qed.

End MkdirAllFuel.
